(** * Login orchestration subsystem: Authenticator, Session Store Adapters,
      Session Manager and Login Use Case

    Shallow embedding of
      - src/poo/good/interfaces/AuthService.ts
      - src/poo/good/services/AuthServiceImpl.ts
      - src/poo/good/services/StorageServiceImpl.ts
      - src/poo/good/session/SessionManager.ts  (SessionManager and
        LoginUserUseCase)

    Conventions.
      - JavaScript strings are [string]; the Spanish messages are kept as the
        source spells them and are only ever compared as a whole.
      - Timestamps ([Date.now()]) and durations are integers of milliseconds
        in [Z]; a session duration is a whole number of hours. The code
        takes any number there: a fractional number of hours goes through
        the rounding of binary64 arithmetic and is not modelled.
      - Where white space matters ([trim], [\s]) strings are taken over the
        code units below 128.
      - [Set<string>] is [gset string], [Map<string,string>] and the browser's
        [localStorage] are [gmap string string].
      - [Date.now()] and [Math.random()] are readings of the surrounding
        runtime; every operation that reads them takes the reading as an
        argument.
      - A thrown value is data: [outcome] is either a returned value or the
        thrown one, and [try]/[catch]/[finally] are combinators on it. *)

From Stdlib Require Import ZArith Ascii String.
From stdpp Require Import gmap strings list fin_maps pretty.

Local Open Scope string_scope.
Local Open Scope Z_scope.

(* ===================================================================== *)
(** * interfaces/AuthService.ts *)
(* ===================================================================== *)

Record User := mkUser { id : string; email : string; name : string }.

Inductive AuthResult :=
| AuthSuccess (user : User) (token : string)
| AuthFailure (error : string).

(** What a [throw] carries: an [Error] object with its [message], or any
    other value. *)
Inductive thrown :=
| ThrownError (message : string)
| ThrownValue (v : string).

Inductive outcome (A : Type) :=
| Returned (a : A)
| Raised (e : thrown).
Arguments Returned {A} a.
Arguments Raised {A} e.

(** State-and-exception monad of the calls made through the interfaces. *)
Definition M (S A : Type) : Type := S → S * outcome A.

Global Instance M_ret {S} : MRet (M S) := λ A a s, (s, Returned a).
Global Instance M_bind {S} : MBind (M S) := λ A B k m s,
  match m s with
  | (s', Returned a) => k a s'
  | (s', Raised e) => (s', Raised e)
  end.

Definition throw {S A} (e : thrown) : M S A := λ s, (s, Raised e).
Definition try_catch {S A} (body : M S A) (handler : thrown → M S A) : M S A :=
  λ s, match body s with
       | (s', Returned a) => (s', Returned a)
       | (s', Raised e) => handler e s'
       end.
(** [try { body } finally { cleanup }] where [cleanup] is a plain state
    update that neither returns nor throws. *)
Definition try_finally {S A} (body : M S A) (cleanup : S → S) : M S A :=
  λ s, match body s with (s', o) => (cleanup s', o) end.
Definition modify {S} (f : S → S) : M S unit := λ s, (f s, Returned tt).
Definition reads {S A} (f : S → A) : M S A := λ s, (s, Returned (f s)).

(** [interface AuthService]; [A] is the state the implementation keeps. *)
Class AuthService (A : Type) := {
  authenticate : string → string → M A AuthResult;
  validateToken : string → M A bool;
  refreshToken : string → M A (option string);
}.

(** [interface SessionService]. *)
Class SessionService (A : Type) := {
  startSession : User → string → M A unit;
  getSession : M A (option (User * string));
  endSession : M A unit;
  isActive : M A bool;
}.

(** [JSON.stringify] / [JSON.parse] at the type a generic [set<T>]/[get<T>]
    is used at; [parse] is [None] where [JSON.parse] throws. *)
Class Json (T : Type) := {
  stringify : T → string;
  parse : string → option T;
}.

(** [interface StorageService]; [A] is the adapter together with the store
    it writes to. *)
Class StorageService (A : Type) := {
  storage_set : ∀ {T} `{Json T}, string → T → A → A;
  storage_get : ∀ {T} `{Json T}, string → A → option T;
  storage_remove : string → A → A;
  storage_clear : A → A;
}.

(* ===================================================================== *)
(** * services/AuthServiceImpl.ts *)
(* ===================================================================== *)

Module AuthServiceImpl.

Record ValidUser := mkValidUser {
  vu_email : string;
  vu_password : string;
  vu_user : User;
}.

Definition validUsers : list ValidUser :=
  [ mkValidUser "test@test.com" "123456"
      (mkUser "1" "test@test.com" "Usuario Test");
    mkValidUser "admin@test.com" "admin123"
      (mkUser "2" "admin@test.com" "Administrador") ].

(** The instance's only mutable field. *)
Record t := mk { validTokens : gset string }.

Definition create : t := mk ∅.

Definition findValidUser (email password : string) : option ValidUser :=
  List.find (λ u, String.eqb (vu_email u) email
                  && String.eqb (vu_password u) password) validUsers.

(** [`token_${userId}_${timestamp}_${random}`] with [timestamp] the
    reading of [Date.now()] and [random] that of
    [Math.random().toString(36).substring(2)]. *)
Definition generateToken (userId : string) (timestamp : Z) (random : string)
  : string :=
  "token_" +:+ userId +:+ "_" +:+ pretty timestamp +:+ "_" +:+ random.

(** [!s] on a string. *)
Definition falsy (s : string) : bool := String.eqb s "".

Definition authenticate (now : Z) (random : string)
    (email password : string) (self : t) : t * AuthResult :=
  if falsy email || falsy password then
    (self, AuthFailure "Email y contraseña son requeridos")
  else
    match findValidUser email password with
    | None => (self, AuthFailure "Credenciales inválidas")
    | Some validUser =>
        let token := generateToken (id (vu_user validUser)) now random in
        (mk ({[token]} ∪ validTokens self),
         AuthSuccess (vu_user validUser) token)
    end.

Definition validateToken (token : string) (self : t) : bool :=
  bool_decide (token ∈ validTokens self).

Definition refreshToken (now : Z) (random : string) (token : string)
    (self : t) : t * option string :=
  if negb (bool_decide (token ∈ validTokens self)) then (self, None)
  else
    let deleted := validTokens self ∖ {[token]} in
    let newToken := generateToken "refreshed" now random in
    (mk ({[newToken]} ∪ deleted), Some newToken).

End AuthServiceImpl.

(* ===================================================================== *)
(** * services/StorageServiceImpl.ts *)
(* ===================================================================== *)

(** The browser's [Storage] object behind the global [localStorage]. *)
Module Storage.

Definition getItem (k : string) (ls : gmap string string) : option string :=
  ls !! k.
Definition setItem (k v : string) (ls : gmap string string)
  : gmap string string := <[k:=v]> ls.
Definition removeItem (k : string) (ls : gmap string string)
  : gmap string string := delete k ls.
Definition length (ls : gmap string string) : nat := size ls.
(** [key(i)]: the i-th key in the store's enumeration order, [null] past
    the end. *)
Definition key (i : nat) (ls : gmap string string) : option string :=
  (map_to_list ls).*1 !! i.

End Storage.

Module LocalStorageService.

(** The instance holds [prefix]; [localStorage] is the global it shares
    with every other instance. *)
Record t := mk { prefix : string; localStorage : gmap string string }.

Definition buildKey (prefix key : string) : string := prefix +:+ key.

(** [JSON.stringify] and [setItem] are taken to succeed; were one to throw,
    the [catch] would log it and the store would be as it was. *)
Definition set `{Json T} (prefix key : string) (value : T)
    (ls : gmap string string) : gmap string string :=
  let serialized := stringify value in
  Storage.setItem (buildKey prefix key) serialized ls.

Definition get `{Json T} (prefix key : string) (ls : gmap string string)
  : option T :=
  match Storage.getItem (buildKey prefix key) ls with
  | None => None
  | Some item => parse item
  end.

Definition remove (prefix key : string) (ls : gmap string string)
  : gmap string string :=
  Storage.removeItem (buildKey prefix key) ls.

(** [for (let i = 0; i < localStorage.length; i++)]: [todo] iterations
    remain, [i] is the loop index. *)
Fixpoint clear_loop (prefix : string) (ls : gmap string string)
    (todo i : nat) (keysToRemove : list string) : list string :=
  match todo with
  | O => keysToRemove
  | S todo' =>
      let keysToRemove' :=
        match Storage.key i ls with
        | Some key =>
            if String.prefix prefix key then (keysToRemove ++ [key])%list
            else keysToRemove
        | None => keysToRemove
        end in
      clear_loop prefix ls todo' (S i) keysToRemove'
  end.

Definition clear (prefix : string) (ls : gmap string string)
  : gmap string string :=
  let keysToRemove := clear_loop prefix ls (Storage.length ls) 0 [] in
  foldl (λ ls key, Storage.removeItem key ls) ls keysToRemove.

Global Instance storageService : StorageService t := {
  storage_set T _ key value self :=
    mk (prefix self) (set (prefix self) key value (localStorage self));
  storage_get T _ key self := get (prefix self) key (localStorage self);
  storage_remove key self :=
    mk (prefix self) (remove (prefix self) key (localStorage self));
  storage_clear self :=
    mk (prefix self) (clear (prefix self) (localStorage self));
}.

End LocalStorageService.

Module InMemoryStorageService.

(** The instance's private [Map]; keys are written verbatim. *)
Record t := mk { storage : gmap string string }.

Definition create : t := mk ∅.

Definition set `{Json T} (key : string) (value : T) (self : t) : t :=
  mk (<[key:=stringify value]> (storage self)).

Definition get `{Json T} (key : string) (self : t) : option T :=
  match storage self !! key with
  | None => None
  | Some item => if String.eqb item "" then None else parse item
  end.

Definition remove (key : string) (self : t) : t :=
  mk (delete key (storage self)).

Definition clear (self : t) : t := mk ∅.

Global Instance storageService : StorageService t := {
  storage_set T _ := set;
  storage_get T _ := get;
  storage_remove := remove;
  storage_clear := clear;
}.

End InMemoryStorageService.

(* ===================================================================== *)
(** * session/SessionManager.ts: SessionManager *)
(* ===================================================================== *)

Module SessionManager.

(** [interface SessionState], internal to the class. *)
Record SessionState := mkSessionState {
  user : User;
  token : string;
  createdAt : Z;
  expiresAt : Z;
}.

Section WithStorage.
Context {A : Type} `{StorageService A} `{Json SessionState}.

Record t := mk {
  currentSession : option SessionState;
  storage : A;
  sessionDurationMs : Z;
}.

Definition sessionKey : string := "session".

Definition restoreSession (now : Z) (self : t) : t :=
  match storage_get sessionKey (storage self) with
  | Some stored =>
      if expiresAt stored >? now then
        mk (Some stored) (storage self) (sessionDurationMs self)
      else
        mk (currentSession self) (storage_remove sessionKey (storage self))
           (sessionDurationMs self)
  | None => self
  end.

(** [new SessionManager(storage, sessionDurationHours)], run when
    [Date.now()] reads [now]. *)
Definition constructor (storage : A) (sessionDurationHours : Z) (now : Z)
  : t :=
  restoreSession now (mk None storage (sessionDurationHours * 60 * 60 * 1000)).

Definition startSession (now : Z) (user : User) (token : string) (self : t)
  : t :=
  let session :=
    mkSessionState (mkUser (id user) (email user) (name user)) token
                   now (now + sessionDurationMs self) in
  mk (Some session) (storage_set sessionKey session (storage self))
     (sessionDurationMs self).

Definition isExpired (now : Z) (self : t) : bool :=
  match currentSession self with
  | None => true
  | Some s => now >? expiresAt s
  end.

Definition getSession (now : Z) (self : t) : option (User * string) :=
  match currentSession self with
  | None => None
  | Some s =>
      if isExpired now self then None
      else Some (mkUser (id (user s)) (email (user s)) (name (user s)),
                 token s)
  end.

Definition getUser (now : Z) (self : t) : option User :=
  match getSession now self with
  | Some session =>
      let u := fst session in Some (mkUser (id u) (email u) (name u))
  | None => None
  end.

Definition getToken (self : t) : option string :=
  match currentSession self with
  | Some s => Some (token s)
  | None => None
  end.

Definition endSession (self : t) : t :=
  mk None (storage_remove sessionKey (storage self)) (sessionDurationMs self).

Definition isActive (now : Z) (self : t) : bool :=
  match currentSession self with
  | None => false
  | Some _ => negb (isExpired now self)
  end.

Definition getTimeRemaining (now : Z) (self : t) : Z :=
  match currentSession self with
  | None => 0
  | Some s => let remaining := expiresAt s - now in Z.max 0 remaining
  end.

(** [Date.now()] is read twice: [now] by [isExpired], [now'] by the
    assignment. *)
Definition extendSession (now now' : Z) (self : t) : t :=
  match currentSession self with
  | Some s =>
      if negb (isExpired now self) then
        let s' := mkSessionState (user s) (token s) (createdAt s)
                                 (now' + sessionDurationMs self) in
        mk (Some s') (storage_set sessionKey s' (storage self))
           (sessionDurationMs self)
      else self
  | None => self
  end.

End WithStorage.
Arguments t A : clear implicits.
End SessionManager.

(* ===================================================================== *)
(** * Regular expressions, for [emailRegex.test] *)
(* ===================================================================== *)

Module RegExp.

Inductive regex :=
| Never
| Empty
| Class (p : ascii → bool)
| Cat (r1 r2 : regex)
| Alt (r1 r2 : regex)
| Star (r : regex).

(** [r+] *)
Definition Plus (r : regex) : regex := Cat r (Star r).

Fixpoint nullable (r : regex) : bool :=
  match r with
  | Never => false
  | Empty => true
  | Class _ => false
  | Cat r1 r2 => nullable r1 && nullable r2
  | Alt r1 r2 => nullable r1 || nullable r2
  | Star _ => true
  end.

Fixpoint deriv (c : ascii) (r : regex) : regex :=
  match r with
  | Never => Never
  | Empty => Never
  | Class p => if p c then Empty else Never
  | Cat r1 r2 =>
      if nullable r1 then Alt (Cat (deriv c r1) r2) (deriv c r2)
      else Cat (deriv c r1) r2
  | Alt r1 r2 => Alt (deriv c r1) (deriv c r2)
  | Star r' => Cat (deriv c r') (Star r')
  end.

(** [/^r$/.test(s)] *)
Fixpoint test (r : regex) (s : string) : bool :=
  match s with
  | EmptyString => nullable r
  | String c s' => test (deriv c r) s'
  end.

(** [\s], on the code units below 128. *)
Definition isWhiteSpace (c : ascii) : bool :=
  bool_decide (nat_of_ascii c ∈ [9; 10; 11; 12; 13; 32]%nat).

Definition lit (a : ascii) : regex := Class (Ascii.eqb a).

End RegExp.

(** [String.prototype.trim], on strings of code units below 128. *)
Fixpoint trimStart (s : string) : string :=
  match s with
  | String c s' => if RegExp.isWhiteSpace c then trimStart s' else s
  | EmptyString => EmptyString
  end.
Definition trim (s : string) : string :=
  String.rev (trimStart (String.rev (trimStart s))).

(* ===================================================================== *)
(** * session/SessionManager.ts: LoginUserUseCase *)
(* ===================================================================== *)

(** [interface LoginResult]: [{success: true, user}] or
    [{success: false, error}]. *)
Inductive LoginResult :=
| LoginSuccess (user : User)
| LoginFailure (error : string).

Record LogoutResult := mkLogoutResult { success : bool }.

Module AuthState.
Record t := mk {
  isAuthenticated : bool;
  user : option User;
  isLoading : bool;
}.
End AuthState.

Module LoginUserUseCase.

(** [W] is the state of the two injected collaborators. *)
Record t (W : Type) := mk { isLoading : bool; services : W }.
Arguments mk {W}.
Arguments isLoading {W}.
Arguments services {W}.

(** A call on [this.authService] or [this.sessionService]. *)
Definition call {W A} (m : M W A) : M (t W) A :=
  λ self, match m (services self) with
          | (w', o) => (mk (isLoading self) w', o)
          end.

Definition setLoading {W} (b : bool) (self : t W) : t W :=
  mk b (services self).

(** [/^[^\s@]+@[^\s@]+\.[^\s@]+$/] *)
Definition emailRegex : RegExp.regex :=
  let notSpaceAt :=
    RegExp.Class (λ c, negb (RegExp.isWhiteSpace c || Ascii.eqb c "@")) in
  RegExp.Cat (RegExp.Plus notSpaceAt)
    (RegExp.Cat (RegExp.lit "@")
       (RegExp.Cat (RegExp.Plus notSpaceAt)
          (RegExp.Cat (RegExp.lit ".") (RegExp.Plus notSpaceAt)))).

Definition validateInput (email password : string) : option string :=
  if String.eqb (trim email) "" then Some "El email es requerido"
  else if String.eqb password "" then Some "La contraseña es requerida"
  else if negb (RegExp.test emailRegex email) then
    Some "Formato de email inválido"
  else None.

Definition errorMessage (error : thrown) : string :=
  match error with
  | ThrownError message => message
  | ThrownValue _ => "Error desconocido durante el login"
  end.

Section WithServices.
Context {W : Type} `{AuthService W} `{SessionService W}.

(** What follows [await this.authService.authenticate(email, password)]
    inside the [try] block, the awaited call included. *)
Definition authenticateAndStart (email password : string)
  : M (t W) LoginResult :=
  authResult ← call (authenticate email password);
  match authResult with
  | AuthFailure error => mret (LoginFailure error)
  | AuthSuccess user token =>
      call (startSession user token);;
      mret (LoginSuccess user)
  end.

Definition catchAll (body : M (t W) LoginResult) : M (t W) LoginResult :=
  try_finally
    (try_catch body (λ error, mret (LoginFailure (errorMessage error))))
    (setLoading false).

(** [execute] run from its call to its resolution with nothing else
    scheduled in between. *)
Definition execute (email password : string) : M (t W) LoginResult :=
  λ self,
    if isLoading self then
      (self, Returned (LoginFailure "Login en progreso"))
    else
      (modify (setLoading true);;
       catchAll
         (match validateInput email password with
          | Some validationError => mret (LoginFailure validationError)
          | None => authenticateAndStart email password
          end)) self.

Definition logout : M (t W) LogoutResult :=
  try_catch (call endSession;; mret (mkLogoutResult true))
            (λ _, mret (mkLogoutResult false)).

Definition getAuthState : M (t W) AuthState.t :=
  session ← call getSession;
  active ← call isActive;
  loading ← reads isLoading;
  mret (AuthState.mk active (fst <$> session) loading).

Definition isAuthenticated : M (t W) bool := call isActive.

Definition getCurrentUser : M (t W) (option User) :=
  session ← call getSession;
  mret (fst <$> session).

(** ** The same [execute], cut at its one suspension point

    An [async] function runs synchronously up to its first [await];
    other calls on the instance can run before it is resumed. *)
Inductive progress :=
| Resolved (result : outcome LoginResult)
| Awaiting (email password : string).

(** From the call up to the [await]: either the call is over, or
    [authenticate(email, password)] has been invoked and is awaited. *)
Definition execute_enter (email password : string) (self : t W)
  : t W * progress :=
  if isLoading self then
    (self, Resolved (Returned (LoginFailure "Login en progreso")))
  else
    let self := setLoading true self in
    match validateInput email password with
    | Some validationError =>
        let '(self, o) :=
          catchAll (mret (LoginFailure validationError)) self in
        (self, Resolved o)
    | None => (self, Awaiting email password)
    end.

(** From the [await] to the resolution of the call. *)
Definition execute_resume (p : progress) : M (t W) LoginResult :=
  match p with
  | Resolved o => λ self, (self, o)
  | Awaiting email password =>
      catchAll (authenticateAndStart email password)
  end.

End WithServices.
End LoginUserUseCase.

(* ===================================================================== *)
(** * The services behind the interfaces *)
(* ===================================================================== *)

(** The assembly of [createLoginUseCase]: an [AuthServiceImpl] and a
    [SessionManager] over some storage adapter, with the readings of
    [Date.now()] and [Math.random()] in force while a call runs. *)
Module App.
Section WithStorage.
Context {A : Type} `{StorageService A} `{Json SessionManager.SessionState}.

Record World := mkWorld {
  authService : AuthServiceImpl.t;
  sessionManager : SessionManager.t A;
  now : Z;
  random : string;
}.

Definition withAuth (f : AuthServiceImpl.t → AuthServiceImpl.t)
    (w : World) : World :=
  mkWorld (f (authService w)) (sessionManager w) (now w) (random w).
Definition withSession (f : SessionManager.t A → SessionManager.t A)
    (w : World) : World :=
  mkWorld (authService w) (f (sessionManager w)) (now w) (random w).
Global Instance auth : AuthService World := {
  authenticate email password := λ w,
    match AuthServiceImpl.authenticate (now w) (random w) email password
            (authService w) with
    | (a, r) => (withAuth (λ _, a) w, Returned r)
    end;
  validateToken token :=
    reads (λ w, AuthServiceImpl.validateToken token (authService w));
  refreshToken token := λ w,
    match AuthServiceImpl.refreshToken (now w) (random w) token
            (authService w) with
    | (a, r) => (withAuth (λ _, a) w, Returned r)
    end;
}.

Global Instance session : SessionService World := {
  startSession user token := λ w,
    (withSession (SessionManager.startSession (now w) user token) w,
     Returned tt);
  getSession :=
    reads (λ w, SessionManager.getSession (now w) (sessionManager w));
  endSession := modify (withSession SessionManager.endSession);
  isActive :=
    reads (λ w, SessionManager.isActive (now w) (sessionManager w));
}.

End WithStorage.
Arguments World A : clear implicits.
End App.

(* ===================================================================== *)
(** * Auxiliary definitions for the statements *)
(* ===================================================================== *)

(** The strings without an underscore: the user ids of the registry,
    "refreshed", and every decimal timestamp. *)
Fixpoint noUnderscore (s : string) : bool :=
  match s with
  | EmptyString => true
  | String c s' => negb (Ascii.eqb c "_") && noUnderscore s'
  end.

(** Every token of the set was issued by [generateToken] at a reading of
    the clock no later than [clock]. *)
Definition issued_until (clock : Z) (tokens : gset string) : Prop :=
  ∀ tok, tok ∈ tokens →
    ∃ uid ts r, noUnderscore uid = true
                ∧ tok = AuthServiceImpl.generateToken uid ts r ∧ ts ≤ clock.

(** A serializer for [SessionState] that can be run, standing in for
    [JSON.stringify]/[JSON.parse] where a store is evaluated on concrete
    data: the six fields, separated by a bar. As with JSON, the empty text
    does not parse. *)
Module FieldCodec.
Import SessionManager.

Fixpoint fields (s : string) : list string :=
  match s with
  | EmptyString => [EmptyString]
  | String c s' =>
      if Ascii.eqb c "|" then EmptyString :: fields s'
      else match fields s' with
           | f :: fs => String c f :: fs
           | [] => [String c EmptyString]
           end
  end.

Definition digit (c : ascii) : option Z :=
  let n := Z.of_nat (nat_of_ascii c) in
  if (48 <=? n) && (n <=? 57) then Some (n - 48) else None.

Fixpoint digits (acc : Z) (s : string) : option Z :=
  match s with
  | EmptyString => Some acc
  | String c s' =>
      match digit c with
      | Some d => digits (10 * acc + d) s'
      | None => None
      end
  end.

Definition number (s : string) : option Z :=
  match s with
  | EmptyString => None
  | String "-" s' => if String.eqb s' "" then None else Z.opp <$> digits 0 s'
  | _ => digits 0 s
  end.

Global Instance json : Json SessionState := {
  stringify s :=
    id (user s) +:+ "|" +:+ email (user s) +:+ "|" +:+ name (user s)
    +:+ "|" +:+ token s +:+ "|" +:+ pretty (createdAt s)
    +:+ "|" +:+ pretty (expiresAt s);
  parse text :=
    match fields text with
    | [i; e; n; t; c; x] =>
        c' ← number c; x' ← number x;
        Some (mkSessionState (mkUser i e n) t c' x')
    | _ => None
    end;
}.

End FieldCodec.

(** The calls that change a Session Manager, each with the readings of
    [Date.now()] it makes, and a history of such calls. *)
Module SessionHistory.
Import SessionManager.

Inductive call :=
| StartSession (now : Z) (user : User) (token : string)
| EndSession
| ExtendSession (now now' : Z).

Section WithStorage.
Context {A : Type} `{StorageService A} `{Json SessionState}.

Definition step (c : call) (self : t A) : t A :=
  match c with
  | StartSession now user token => startSession now user token self
  | EndSession => endSession self
  | ExtendSession now now' => extendSession now now' self
  end.

Definition run (calls : list call) (self : t A) : t A :=
  foldl (λ self c, step c self) self calls.

End WithStorage.


End SessionHistory.

(** Test doubles in the manner of [LoginUseCaseFactory.createForTesting]:
    an authenticator that accepts everything and a session service that
    does nothing, each call made to throw on demand. *)
Module Doubles.

Record t := mk {
  authenticateThrows : option thrown;
  startSessionThrows : option thrown;
  endSessionThrows : option thrown;
}.

Definition user : User := mkUser "1" "test@test.com" "Test".

Definition orThrow {A} (e : option thrown) (a : A) : M t A :=
  λ w, match e with Some e => (w, Raised e) | None => (w, Returned a) end.

Global Instance auth : AuthService t := {
  authenticate _ _ := λ w,
    orThrow (authenticateThrows w) (AuthSuccess user "token") w;
  validateToken _ := mret true;
  refreshToken _ := mret (Some "new-token");
}.

Global Instance session : SessionService t := {
  startSession _ _ := λ w, orThrow (startSessionThrows w) tt w;
  getSession := mret (Some (user, "token"));
  endSession := λ w, orThrow (endSessionThrows w) tt w;
  isActive := mret true;
}.

End Doubles.

(** The use case of [createLoginUseCase], over an in-memory store, before
    any call. *)
Definition demo : LoginUserUseCase.t (App.World InMemoryStorageService.t) :=
  LoginUserUseCase.mk false
    (App.mkWorld AuthServiceImpl.create
       (SessionManager.constructor InMemoryStorageService.create 24 1000)
       1500 "k3j9").

(** [class MockAuthService] of AuthServiceImpl.ts. *)
Module MockAuthService.

Record t := mk { shouldSucceed : bool }.

Definition mockUser : User := mkUser "mock-1" "mock@test.com" "Mock User".

Definition authenticate (email password : string) (self : t) : AuthResult :=
  if shouldSucceed self && negb (AuthServiceImpl.falsy email)
     && negb (AuthServiceImpl.falsy password)
  then AuthSuccess mockUser "mock-token"
  else AuthFailure "Mock error".

Definition validateToken (token : string) : bool :=
  String.eqb token "mock-token".

Definition refreshToken (self : t) : option string :=
  if shouldSucceed self then Some "new-mock-token" else None.

Global Instance authService : AuthService t := {
  authenticate email password := reads (authenticate email password);
  validateToken token := mret (validateToken token);
  refreshToken _ := reads refreshToken;
}.

End MockAuthService.

(** The calls that change an [AuthServiceImpl], each with the readings of
    [Date.now()] and [Math.random()] it makes, and a history of such calls
    together with the tokens the calls have returned. *)
Module AuthHistory.
Import AuthServiceImpl.

Inductive call :=
| Authenticate (now : Z) (random email password : string)
| RefreshToken (now : Z) (random token : string).

(** The instance after the call, and the token the call returned, if any. *)
Definition step (c : call) (self : t) : t * option string :=
  match c with
  | Authenticate now random email password =>
      match authenticate now random email password self with
      | (self', AuthSuccess _ token) => (self', Some token)
      | (self', AuthFailure _) => (self', None)
      end
  | RefreshToken now random token => refreshToken now random token self
  end.

Fixpoint run (calls : list call) (self : t) : t * list string :=
  match calls with
  | [] => (self, [])
  | c :: rest =>
      match step c self with
      | (self', returned) =>
          match run rest self' with
          | (self'', tokens) => (self'', (option_list returned ++ tokens)%list)
          end
      end
  end.

End AuthHistory.

(** The calls that change a store through [interface StorageService], and
    a history of such calls. *)
Module StorageHistory.

Inductive call (T : Type) :=
| Set_ (key : string) (value : T)
| Remove (key : string)
| Clear.
Arguments Set_ {T} key value.
Arguments Remove {T} key.
Arguments Clear {T}.

Section WithStorage.
Context {A : Type} `{StorageService A} {T : Type} `{Json T}.

Definition step (c : call T) (a : A) : A :=
  match c with
  | Set_ key value => storage_set key value a
  | Remove key => storage_remove key a
  | Clear => storage_clear a
  end.

Definition run (calls : list (call T)) (a : A) : A :=
  foldl (λ a c, step c a) a calls.
End WithStorage.

End StorageHistory.

(** What a store must do for a session to be found again: [get] after
    [set] on a key returns the value, when the serializer round-trips it
    and does not serialize it to the empty text, and [get] after [remove]
    returns [null]. *)
Class StorageLaws (A : Type) `{StorageService A} := {
  get_after_set :
    ∀ (T : Type) (codec : Json T) (key : string) (value : T) (a : A),
      parse (stringify value) = Some value → stringify value ≠ "" →
      storage_get key (storage_set key value a) = Some value;
  get_after_remove :
    ∀ (T : Type) (codec : Json T) (key : string) (a : A),
      storage_get key (storage_remove key a) = None (A:=T);
}.

(** [class AuditableSessionManager] of SessionManager.ts. The callbacks
    are those that act on a state [E] of whoever registered them: they
    neither throw nor call back into the manager. *)
Module AuditableSessionManager.
Section WithStorage.
Context {A : Type} `{StorageService A} `{Json SessionManager.SessionState}
        {E : Type}.

Record t := mk {
  sessionManager : SessionManager.t A;
  onSessionStart : option (User → E → E);
  onSessionEnd : option (E → E);
}.

Definition constructor (storage : A) (onSessionStart : option (User → E → E))
    (onSessionEnd : option (E → E)) (now : Z) : t :=
  mk (SessionManager.constructor storage 24 now) onSessionStart onSessionEnd.

Definition startSession (now : Z) (user : User) (token : string)
    (self : t) (e : E) : t * E :=
  (mk (SessionManager.startSession now user token (sessionManager self))
      (onSessionStart self) (onSessionEnd self),
   match onSessionStart self with
   | Some callback => callback user e
   | None => e
   end).

Definition getSession (now : Z) (self : t) : option (User * string) :=
  SessionManager.getSession now (sessionManager self).

Definition endSession (self : t) (e : E) : t * E :=
  (mk (SessionManager.endSession (sessionManager self))
      (onSessionStart self) (onSessionEnd self),
   match onSessionEnd self with
   | Some callback => callback e
   | None => e
   end).

Definition isActive (now : Z) (self : t) : bool :=
  SessionManager.isActive now (sessionManager self).

(** The calls of a history, and the same calls on the wrapped manager. *)
Inductive call :=
| StartSession (now : Z) (user : User) (token : string)
| EndSession.

Definition step (c : call) (st : t * E) : t * E :=
  match c with
  | StartSession now user token => startSession now user token st.1 st.2
  | EndSession => endSession st.1 st.2
  end.

Definition run (calls : list call) (st : t * E) : t * E :=
  foldl (λ st c, step c st) st calls.

Definition inner (c : call) : SessionHistory.call :=
  match c with
  | StartSession now user token => SessionHistory.StartSession now user token
  | EndSession => SessionHistory.EndSession
  end.

(** What the callbacks of [self] do on a call. *)
Definition notify (self : t) (e : E) (c : call) : E :=
  match c with
  | StartSession _ user _ =>
      match onSessionStart self with Some f => f user e | None => e end
  | EndSession =>
      match onSessionEnd self with Some f => f e | None => e end
  end.

End WithStorage.
Arguments t A E : clear implicits.
End AuditableSessionManager.

(** When a string is in the language of a regular expression. *)
Inductive matches : RegExp.regex → string → Prop :=
| MEmpty : matches RegExp.Empty ""
| MClass p c : p c = true → matches (RegExp.Class p) (String c "")
| MCat r1 r2 s1 s2 :
    matches r1 s1 → matches r2 s2 → matches (RegExp.Cat r1 r2) (s1 +:+ s2)
| MAltL r1 r2 s : matches r1 s → matches (RegExp.Alt r1 r2) s
| MAltR r1 r2 s : matches r2 s → matches (RegExp.Alt r1 r2) s
| MStarNil r : matches (RegExp.Star r) ""
| MStarCons r s1 s2 :
    matches r s1 → matches (RegExp.Star r) s2 →
    matches (RegExp.Star r) (s1 +:+ s2).

Fixpoint allChars (p : ascii → bool) (s : string) : bool :=
  match s with
  | EmptyString => true
  | String c s' => p c && allChars p s'
  end.

(** A character that is neither white space nor an at sign. *)
Definition plainChar (c : ascii) : bool :=
  negb (RegExp.isWhiteSpace c || Ascii.eqb c "@").

(** The strings of code units below 128, on which [\s] and [trim] of
    JavaScript know the six white space characters of
    [RegExp.isWhiteSpace] only. *)
Definition asciiOnly (s : string) : bool :=
  allChars (λ c, bool_decide (nat_of_ascii c < 128)%nat) s.

(** [local@domain.tld]: three non-empty runs of characters that are neither
    white space nor an at sign, the first two separated by an at sign and
    the last two by a dot. *)
Definition EmailShape (s : string) : Prop :=
  ∃ a b c, s = a +:+ "@" +:+ b +:+ "." +:+ c
           ∧ a ≠ "" ∧ b ≠ "" ∧ c ≠ ""
           ∧ allChars plainChar a = true ∧ allChars plainChar b = true
           ∧ allChars plainChar c = true.

(** The assembly of [createLoginUseCase] with the clock as the code sees
    it: [Date.now()] returns the next reading of [clock] each time it is
    called, [Math.random()] the next text of [random]. [ticks] and [draws]
    count the calls made so far. *)
Module ClockedApp.
Section WithStorage.
Context {A : Type} `{StorageService A} `{Json SessionManager.SessionState}.

Record World := mkWorld {
  authService : AuthServiceImpl.t;
  sessionManager : SessionManager.t A;
  clock : nat → Z;
  ticks : nat;
  random : nat → string;
  draws : nat;
}.

(** The reading the next [Date.now()] returns. *)
Definition dateNow (w : World) : Z := clock w (ticks w).
(** The text the next [Math.random().toString(36).substring(2)] gives. *)
Definition mathRandom (w : World) : string := random w (draws w).

(** [generateToken] calls [Date.now()] and [Math.random()] once each, on
    the paths that reach it. *)
Global Instance auth : AuthService World := {
  authenticate email password := λ w,
    match AuthServiceImpl.authenticate (dateNow w) (mathRandom w)
            email password (authService w) with
    | (a, AuthSuccess user token) =>
        (mkWorld a (sessionManager w) (clock w) (S (ticks w))
                 (random w) (S (draws w)),
         Returned (AuthSuccess user token))
    | (a, AuthFailure error) =>
        (mkWorld a (sessionManager w) (clock w) (ticks w)
                 (random w) (draws w),
         Returned (AuthFailure error))
    end;
  validateToken token :=
    reads (λ w, AuthServiceImpl.validateToken token (authService w));
  refreshToken token := λ w,
    match AuthServiceImpl.refreshToken (dateNow w) (mathRandom w) token
            (authService w) with
    | (a, Some newToken) =>
        (mkWorld a (sessionManager w) (clock w) (S (ticks w))
                 (random w) (S (draws w)),
         Returned (Some newToken))
    | (a, None) =>
        (mkWorld a (sessionManager w) (clock w) (ticks w)
                 (random w) (draws w),
         Returned None)
    end;
}.

(** [startSession] reads the clock once; [getSession] and [isActive] read
    it once, in [isExpired], when a session is held, and not at all
    otherwise. *)
Definition afterRead (w : World) : World :=
  match SessionManager.currentSession (sessionManager w) with
  | Some _ =>
      mkWorld (authService w) (sessionManager w) (clock w) (S (ticks w))
              (random w) (draws w)
  | None => w
  end.

Global Instance session : SessionService World := {
  startSession user token := λ w,
    (mkWorld (authService w)
       (SessionManager.startSession (dateNow w) user token (sessionManager w))
       (clock w) (S (ticks w)) (random w) (draws w),
     Returned tt);
  getSession := λ w,
    (afterRead w,
     Returned (SessionManager.getSession (dateNow w) (sessionManager w)));
  endSession := λ w,
    (mkWorld (authService w) (SessionManager.endSession (sessionManager w))
       (clock w) (ticks w) (random w) (draws w),
     Returned tt);
  isActive := λ w,
    (afterRead w,
     Returned (SessionManager.isActive (dateNow w) (sessionManager w)));
}.

End WithStorage.
Arguments World A : clear implicits.
End ClockedApp.


(** Concrete data the statements are evaluated on. *)
Definition testUser : User := mkUser "1" "test@test.com" "Usuario Test".

(** [new SessionManager(new InMemoryStorageService())] at the reading 1000
    of the clock. *)
Definition fresh : SessionManager.t InMemoryStorageService.t :=
  SessionManager.constructor InMemoryStorageService.create 24 1000.

(** A clocked assembly holding a session of one hour started at the
    reading 0, the clock standing at its [expiresAt], 3600000. *)
Definition clockedAtExpiry
  : LoginUserUseCase.t (ClockedApp.World InMemoryStorageService.t) :=
  LoginUserUseCase.mk false
    (ClockedApp.mkWorld AuthServiceImpl.create
       (SessionManager.startSession 0 testUser "token_1_0_abc"
          (SessionManager.constructor InMemoryStorageService.create 1 0))
       (λ i, 3600000 + Z.of_nat i) 0 (λ _, "k3j9") 0).

(* ===================================================================== *)
(** * Properties of the Authenticator *)
(* ===================================================================== *)

Section Authenticator.
Import AuthServiceImpl.

Lemma falsy_spec (s : string) : falsy s = true ↔ s = "".
Proof. unfold falsy. apply String.eqb_eq. Qed.

Lemma falsy_false (s : string) : s ≠ "" → falsy s = false.
Proof.
  intros Hs. destruct (falsy s) eqn:E; [|done].
  by apply falsy_spec in E.
Qed.

(** [findValidUser] decides membership in the registry of the two
    credential pairs. *)
Lemma findValidUser_Some (em pw : string) (u : ValidUser) :
  findValidUser em pw = Some u →
  vu_email u = em ∧ vu_password u = pw ∧ u ∈ validUsers.
Proof.
  unfold findValidUser. intros Hf.
  pose proof (find_some _ _ Hf) as [Hin Hb].
  apply andb_true_iff in Hb as [He Hp].
  apply String.eqb_eq in He, Hp.
  split_and!; [done..|]. by apply list_elem_of_In.
Qed.

Lemma findValidUser_None (em pw : string) :
  findValidUser em pw = None →
  (em, pw) ∉ [("test@test.com", "123456"); ("admin@test.com", "admin123")].
Proof.
  unfold findValidUser. intros Hf Hin.
  rewrite !elem_of_cons, elem_of_nil in Hin.
  destruct Hin as [[= -> ->]|[[= -> ->]|[]]]; discriminate Hf.
Qed.

Lemma findValidUser_registered (em pw : string) (u : ValidUser) :
  findValidUser em pw = Some u →
  (em, pw) ∈ [("test@test.com", "123456"); ("admin@test.com", "admin123")].
Proof.
  intros Hf. apply findValidUser_Some in Hf as (<- & <- & Hin).
  unfold validUsers in Hin. rewrite !elem_of_cons, elem_of_nil in Hin.
  destruct Hin as [->|[->|[]]]; simpl; set_solver.
Qed.

(** C1. For each of the two registered credential pairs [authenticate]
    succeeds with a user whose email is the one given, for
    ("test@test.com", "123456") that user is
    {id "1", email "test@test.com", name "Usuario Test"}, and for every
    pair of non-empty strings outside the registry it fails with
    "Credenciales inválidas". *)
Theorem authenticate_registry (now : Z) (random : string) (self : t)
    (em pw : string) :
  ((em, pw) ∈ [("test@test.com", "123456"); ("admin@test.com", "admin123")] →
   ∃ u tok, authenticate now random em pw self
            = (mk ({[tok]} ∪ validTokens self), AuthSuccess u tok)
            ∧ email u = em) ∧
  (∃ tok, (authenticate now random "test@test.com" "123456" self).2
          = AuthSuccess (mkUser "1" "test@test.com" "Usuario Test") tok) ∧
  (em ≠ "" → pw ≠ "" →
   (em, pw) ∉ [("test@test.com", "123456"); ("admin@test.com", "admin123")] →
   authenticate now random em pw self
   = (self, AuthFailure "Credenciales inválidas")).
Proof.
  split_and!.
  - intros Hin. rewrite !elem_of_cons, elem_of_nil in Hin.
    destruct Hin as [[= -> ->]|[[= -> ->]|[]]]; eexists _, _; split; reflexivity.
  - eexists. reflexivity.
  - intros He Hp Hout. unfold authenticate.
    rewrite (falsy_false _ He), (falsy_false _ Hp). simpl.
    destruct (findValidUser em pw) as [u|] eqn:Hf; [|done].
    by apply findValidUser_registered in Hf.
Qed.

Lemma authenticate_registry_witness :
  (∃ u tok, authenticate 1700000000000 "k3j9" "admin@test.com" "admin123" create
            = (mk ({[tok]} ∪ validTokens create), AuthSuccess u tok)
            ∧ email u = "admin@test.com") ∧
  authenticate 1700000000000 "k3j9" "bad@test.com" "wrong" create
  = (create, AuthFailure "Credenciales inválidas").
Proof.
  split.
  - apply (proj1 (authenticate_registry 1700000000000 "k3j9" create
                    "admin@test.com" "admin123")).
    set_solver.
  - apply (proj2 (proj2 (authenticate_registry 1700000000000 "k3j9" create
                           "bad@test.com" "wrong"))); [done|done|].
    rewrite !elem_of_cons, elem_of_nil. intros [[=]|[[=]|[]]].
Defined.

(** C10. A call of [authenticate] that fails, for an empty field or for
    credentials that match no entry, leaves the valid-token set as it
    was, so [validateToken] answers as before on every string. *)
Theorem authenticate_failure_keeps_tokens (now : Z) (random : string)
    (self : t) (em pw : string) (error : string) :
  (authenticate now random em pw self).2 = AuthFailure error →
  (authenticate now random em pw self).1 = self ∧
  ∀ s, validateToken s (authenticate now random em pw self).1
       = validateToken s self.
Proof.
  unfold authenticate.
  destruct (falsy em || falsy pw); simpl.
  - by intros _.
  - destruct (findValidUser em pw); simpl; [discriminate|by intros _].
Qed.

Lemma authenticate_failure_keeps_tokens_witness :
  let self := mk {["token_1_5_abc"]} in
  ((authenticate 7 "r" "" "123456" self).1 = self ∧
   ∀ s, validateToken s (authenticate 7 "r" "" "123456" self).1
        = validateToken s self) ∧
  ((authenticate 7 "r" "test@test.com" "nope" self).1 = self ∧
   ∀ s, validateToken s (authenticate 7 "r" "test@test.com" "nope" self).1
        = validateToken s self).
Proof.
  split.
  - apply (authenticate_failure_keeps_tokens 7 "r" _ "" "123456"
             "Email y contraseña son requeridos"). reflexivity.
  - apply (authenticate_failure_keeps_tokens 7 "r" _ "test@test.com" "nope"
             "Credenciales inválidas"). reflexivity.
Defined.

End Authenticator.

(** ** Token format: tokens issued at different clock readings differ *)

Section TokenFormat.
Import AuthServiceImpl.

Lemma pretty_N_go_noUnderscore (x : N) (s : string) :
  noUnderscore s = true → noUnderscore (pretty_N_go x s) = true.
Proof.
  revert s. induction (N.lt_wf_0 x) as [x _ IH]; intros s Hs.
  destruct (decide (x = 0%N)) as [->|Hx].
  - by rewrite pretty_N_go_0.
  - rewrite pretty_N_go_step by lia. apply IH.
    + apply N.div_lt; lia.
    + simpl. rewrite Hs, andb_true_r.
      unfold pretty_N_char. by repeat case_match.
Qed.

Lemma pretty_Z_noUnderscore (z : Z) : noUnderscore (pretty z) = true.
Proof.
  assert (∀ p : positive, noUnderscore (pretty p) = true) as Hpos.
  { intros p. unfold pretty, pretty_positive, pretty, pretty_N.
    case_decide; [done|]. by apply pretty_N_go_noUnderscore. }
  destruct z as [|p|p]; [done|apply Hpos|].
  unfold pretty, pretty_Z. simpl. apply Hpos.
Qed.

(** A string is cut in one way only at its first underscore. *)
Lemma app_underscore_inj (a b x y : string) :
  noUnderscore a = true → noUnderscore b = true →
  a +:+ "_" +:+ x = b +:+ "_" +:+ y → a = b ∧ x = y.
Proof.
  revert b. induction a as [|c a IH]; intros [|d b]; simpl.
  - intros _ _ [= Hxy]. by subst.
  - intros _ Hb [= <- _]. simpl in Hb. discriminate Hb.
  - intros Ha _ [= -> _]. simpl in Ha. discriminate Ha.
  - intros Ha Hb [= -> Hrest].
    apply andb_true_iff in Ha as [_ Ha], Hb as [_ Hb].
    destruct (IH b Ha Hb Hrest) as [-> ->]. done.
Qed.

Lemma generateToken_inj (uid uid' : string) (ts ts' : Z) (r r' : string) :
  noUnderscore uid = true → noUnderscore uid' = true →
  generateToken uid ts r = generateToken uid' ts' r' →
  uid = uid' ∧ ts = ts' ∧ r = r'.
Proof.
  intros Hu Hu'. unfold generateToken. simpl. intros [= Heq].
  apply app_underscore_inj in Heq as [-> Heq]; [|done..].
  apply app_underscore_inj in Heq as [Hts ->];
    [|apply pretty_Z_noUnderscore..].
  by apply (inj pretty) in Hts as ->.
Qed.

(** A token issued by this Authenticator at another reading of the clock
    is never the one [refreshToken] generates now. *)
Lemma refreshed_token_fresh (now : Z) (random : string)
    (uid : string) (ts : Z) (r : string) :
  noUnderscore uid = true → ts ≠ now →
  generateToken "refreshed" now random ≠ generateToken uid ts r.
Proof.
  intros Hu Hts Heq.
  apply generateToken_inj in Heq as (_ & <- & _); done.
Qed.

Lemma validateToken_spec (s : string) (self : t) :
  validateToken s self = true ↔ s ∈ validTokens self.
Proof. unfold validateToken. apply bool_decide_eq_true. Qed.

(** ** The valid-token set along the life of an Authenticator *)

Lemma issued_until_mono (clock clock' : Z) (tokens : gset string) :
  clock ≤ clock' → issued_until clock tokens → issued_until clock' tokens.
Proof.
  intros Hle Hiss tok Hin.
  destruct (Hiss tok Hin) as (uid & ts & r & Hu & -> & Hts).
  exists uid, ts, r. split_and!; [done..|lia].
Qed.

Lemma issued_until_add (clock : Z) (tokens : gset string)
    (uid : string) (now : Z) (random : string) :
  noUnderscore uid = true → clock ≤ now → issued_until clock tokens →
  issued_until now ({[generateToken uid now random]} ∪ tokens).
Proof.
  intros Hu Hle Hiss tok. rewrite elem_of_union, elem_of_singleton.
  intros [->|Hin].
  - exists uid, now, random. split_and!; [done..|lia].
  - by apply (issued_until_mono clock now tokens).
Qed.

Lemma authenticate_issued (clock now : Z) (random em pw : string)
    (self : t) :
  clock ≤ now → issued_until clock (validTokens self) →
  issued_until now (validTokens (authenticate now random em pw self).1).
Proof.
  intros Hle Hiss. unfold authenticate.
  destruct (falsy em || falsy pw); simpl;
    [by apply (issued_until_mono clock)|].
  destruct (findValidUser em pw) as [u|] eqn:Hf; simpl;
    [|by apply (issued_until_mono clock)].
  apply (issued_until_add clock); [|done..].
  apply findValidUser_Some in Hf as (_ & _ & Hin).
  unfold validUsers in Hin. rewrite !elem_of_cons, elem_of_nil in Hin.
  by destruct Hin as [->|[->|[]]].
Qed.

Lemma refreshToken_issued (clock now : Z) (random t0 : string) (self : t) :
  clock ≤ now → issued_until clock (validTokens self) →
  issued_until now (validTokens (refreshToken now random t0 self).1).
Proof.
  intros Hle Hiss. unfold refreshToken.
  destruct (negb _); simpl; [by apply (issued_until_mono clock)|].
  apply (issued_until_add clock); [done..|].
  intros tok Hin. apply Hiss.
  by apply elem_of_difference in Hin as [Hin _].
Qed.





(** X6. When every token of the set was issued up to the reading [clock]
    and [refreshToken] generates at a later one, the token it returns is a new
    one and the refreshed token is no longer valid. *)
Lemma refreshToken_invalidates_issued (clock now : Z) (random t0 : string)
    (self : t) :
  issued_until clock (validTokens self) → clock < now →
  t0 ∈ validTokens self →
  ∃ t', (refreshToken now random t0 self).2 = Some t'
        ∧ (t' ∉ validTokens self)
        ∧ validateToken t0 (refreshToken now random t0 self).1 = false
        ∧ validateToken t' (refreshToken now random t0 self).1 = true.
Proof.
  intros Hiss Hlt Hin.
  assert (∀ tok, tok ∈ validTokens self →
                 generateToken "refreshed" now random ≠ tok) as Hnew.
  { intros tok Htok. destruct (Hiss tok Htok) as (uid & ts & r & Hu & -> & ?).
    apply refreshed_token_fresh; [done|lia]. }
  unfold refreshToken. rewrite bool_decide_eq_true_2 by done. simpl.
  eexists. split; [reflexivity|]. split_and!.
  - intros Hold. by apply (Hnew _ Hold).
  - apply bool_decide_eq_false_2. simpl.
    rewrite elem_of_union, elem_of_difference, !elem_of_singleton.
    intros [Heq|[_ Hne]]; [by apply (Hnew _ Hin)|by apply Hne].
  - apply bool_decide_eq_true_2. simpl.
    apply elem_of_union_l. by apply elem_of_singleton.
Qed.

End TokenFormat.

(* ===================================================================== *)
(** * Properties of the Session Store Adapters *)
(* ===================================================================== *)

Section StorageAdapters.

Lemma prefix_app (p k : string) : String.prefix p (p +:+ k) = true.
Proof.
  induction p as [|c p IH]; simpl; [by destruct k|].
  by destruct (ascii_dec c c).
Qed.

Lemma prefix_nil (k : string) : String.prefix "" k = true.
Proof. by destruct k. Qed.

(** The scan of [clear] collects, in enumeration order, the keys under
    the prefix among the [todo] keys from index [i] on. *)
Lemma clear_loop_spec (p : string) (ls : gmap string string)
    (todo i : nat) (acc : list string) :
  LocalStorageService.clear_loop p ls todo i acc
  = (acc ++ List.filter (String.prefix p)
              (take todo (drop i (map_to_list ls).*1)))%list.
Proof.
  revert i acc. induction todo as [|todo IH]; intros i acc; simpl.
  - by rewrite app_nil_r.
  - rewrite IH. unfold Storage.key.
    destruct ((map_to_list ls).*1 !! i) as [k|] eqn:Hk.
    + rewrite (drop_S _ _ _ Hk). simpl.
      destruct (String.prefix p k); [by rewrite <-app_assoc|done].
    + apply lookup_ge_None_1 in Hk.
      rewrite !drop_ge by lia. by rewrite !take_nil.
Qed.

Lemma clear_loop_all (p : string) (ls : gmap string string) :
  LocalStorageService.clear_loop p ls (Storage.length ls) 0 []
  = List.filter (String.prefix p) (map_to_list ls).*1.
Proof.
  rewrite clear_loop_spec. simpl. rewrite drop_0, take_ge; [done|].
  unfold Storage.length. by rewrite length_fmap, length_map_to_list.
Qed.

(** [keys.forEach(key => localStorage.removeItem(key))] *)
Lemma lookup_removeItems (keys : list string) (ls : gmap string string)
    (k : string) :
  foldl (λ ls key, Storage.removeItem key ls) ls keys !! k
  = if decide (k ∈ keys) then None else ls !! k.
Proof.
  revert ls. induction keys as [|k' keys IH]; intros ls; simpl.
  - destruct (decide (k ∈ [])) as [Hin|]; [by apply elem_of_nil in Hin|done].
  - rewrite IH. unfold Storage.removeItem.
    destruct (decide (k = k')) as [->|Hne].
    + rewrite lookup_delete_eq.
      destruct (decide (k' ∈ k' :: keys)) as [_|Hout];
        [by destruct (decide (k' ∈ keys))|].
      destruct Hout. apply list_elem_of_here.
    + rewrite lookup_delete_ne by done.
      destruct (decide (k ∈ keys)) as [Hin|Hout],
               (decide (k ∈ k' :: keys)) as [Hin'|Hout']; try done.
      * destruct Hout'. by apply list_elem_of_further.
      * apply elem_of_cons in Hin' as [?|?]; done.
Qed.

Lemma clear_lookup (p : string) (ls : gmap string string) (k : string) :
  LocalStorageService.clear p ls !! k
  = if String.prefix p k then None else ls !! k.
Proof.
  unfold LocalStorageService.clear. rewrite clear_loop_all.
  rewrite lookup_removeItems. case_decide as Hin.
  - apply list_elem_of_In, filter_In in Hin as [_ ->]. done.
  - destruct (String.prefix p k) eqn:Hp; [|done].
    destruct (ls !! k) as [v|] eqn:Hk; [|done].
    exfalso. apply Hin, list_elem_of_In, filter_In. split; [|done].
    apply list_elem_of_In, list_elem_of_fmap. exists (k, v).
    split; [done|]. by apply elem_of_map_to_list.
Qed.

(** The keys [clear] takes out are those the store had under the prefix,
    no more and no fewer. *)
Lemma clear_dom (p : string) (ls : gmap string string) :
  dom (LocalStorageService.clear p ls)
  = filter (λ k, String.prefix p k = false) (dom ls).
Proof.
  apply set_eq. intros k.
  rewrite elem_of_filter, !elem_of_dom, clear_lookup.
  destruct (String.prefix p k).
  - split; [by intros [? ?]|by intros [? _]].
  - split; [by intros ?|by intros [_ ?]].
Qed.

Context {T : Type} {codec : Json T}.

(** C6. [clear()] of either adapter takes out of its store exactly the
    keys under the adapter's prefix and keeps every other entry of a
    shared store: [LocalStorageService] for its [prefix] on
    [localStorage], [InMemoryStorageService], which writes keys verbatim
    into a [Map] of its own, for the empty prefix. Through the interface
    both behave alike: after [clear()] every [get] is [null], and
    [get(key)] after [set(key, value)] is the parsed serialization of
    [value]. *)
Theorem clear_removes_namespace (p : string) (ls : gmap string string)
    (mem : InMemoryStorageService.t) (k key : string) (value : T) :
  LocalStorageService.clear p ls !! k
    = (if String.prefix p k then None else ls !! k) ∧
  InMemoryStorageService.storage (InMemoryStorageService.clear mem) !! k
    = (if String.prefix "" k then None
       else InMemoryStorageService.storage mem !! k) ∧
  (storage_get key (storage_clear (LocalStorageService.mk p ls))
     = None (A:=T) ∧
   storage_get key (storage_clear mem) = None (A:=T)) ∧
  (parse "" = None (A:=T) →
   storage_get key (storage_set key value (LocalStorageService.mk p ls))
     = parse (stringify value) ∧
   storage_get key (storage_set key value mem) = parse (stringify value)).
Proof.
  split_and!.
  - apply clear_lookup.
  - simpl. by rewrite prefix_nil, lookup_empty.
  - simpl. unfold LocalStorageService.get, Storage.getItem.
    by rewrite clear_lookup, prefix_app.
  - done.
  - intros Hempty. split; simpl.
    + unfold LocalStorageService.get, LocalStorageService.set,
        Storage.getItem, Storage.setItem.
      by rewrite lookup_insert_eq.
    + unfold InMemoryStorageService.get, InMemoryStorageService.set.
      simpl. rewrite lookup_insert_eq.
      destruct (String.eqb_spec (stringify value) "") as [->|]; done.
Qed.

End StorageAdapters.

Lemma clear_removes_namespace_witness :
  let s := SessionManager.mkSessionState
             (mkUser "1" "test@test.com" "Usuario Test") "tok" 5 10 in
  let ls : gmap string string :=
    {[ "poo_demo_session" := "x"; "other_app_theme" := "dark" ]} in
  LocalStorageService.clear "poo_demo_" ls !! "other_app_theme" = Some "dark" ∧
  LocalStorageService.clear "poo_demo_" ls !! "poo_demo_session" = None ∧
  storage_get "session"
    (storage_set "session" s (LocalStorageService.mk "poo_demo_" ls)) = Some s ∧
  storage_get "session"
    (storage_set "session" s InMemoryStorageService.create) = Some s.
Proof.
  intros s ls.
  destruct (clear_removes_namespace (codec:=FieldCodec.json) "poo_demo_" ls
              InMemoryStorageService.create "other_app_theme" "session" s)
    as (Hother & _ & _ & Hget).
  destruct (Hget eq_refl) as [Hget1 Hget2].
  destruct (clear_removes_namespace (codec:=FieldCodec.json) "poo_demo_" ls
              InMemoryStorageService.create "poo_demo_session" "session" s)
    as (Hmine & _).
  split_and!.
  - rewrite Hother. reflexivity.
  - rewrite Hmine. reflexivity.
  - rewrite Hget1. reflexivity.
  - rewrite Hget2. reflexivity.
Defined.

(* ===================================================================== *)
(** * Properties of the Session Manager *)
(* ===================================================================== *)

Section SessionManagerProperties.
Import SessionManager SessionHistory.
Context {A : Type} `{StorageService A} `{Json SessionState}.

Lemma copy_user (u : User) : mkUser (id u) (email u) (name u) = u.
Proof. by destruct u. Qed.

Lemma startSession_current (now : Z) (u : User) (tok : string)
    (self : t A) :
  currentSession (startSession now u tok self)
  = Some (mkSessionState u tok now (now + sessionDurationMs self)).
Proof. unfold startSession. simpl. by rewrite copy_user. Qed.

(** C2. With a session duration [d > 0], [getSession()] right after
    [startSession(u, t)] returns [{user, token}] with the fields of [u]
    and the token [t], and so it does at every reading of the clock up to
    [expiresAt = now + d]; at a reading past [expiresAt] it returns
    [null]. *)
Theorem startSession_getSession (self : t A) (u : User) (tok : string)
    (now later : Z) :
  0 < sessionDurationMs self →
  getSession now (startSession now u tok self) = Some (u, tok) ∧
  (now ≤ later ≤ now + sessionDurationMs self →
   getSession later (startSession now u tok self) = Some (u, tok)) ∧
  (later > now + sessionDurationMs self →
   getSession later (startSession now u tok self) = None).
Proof.
  intros Hd.
  assert (∀ t', getSession t' (startSession now u tok self)
                = if t' >? now + sessionDurationMs self then None
                  else Some (u, tok)) as Hget.
  { intros t'. unfold getSession, isExpired.
    rewrite startSession_current. simpl.
    destruct (t' >? _); [done|]. by rewrite copy_user. }
  split_and!.
  - rewrite Hget. destruct (Z.gtb_spec now (now + sessionDurationMs self));
      [lia|done].
  - intros Hle. rewrite Hget.
    destruct (Z.gtb_spec later (now + sessionDurationMs self)); [lia|done].
  - intros Hgt. rewrite Hget.
    destruct (Z.gtb_spec later (now + sessionDurationMs self)); [done|lia].
Qed.

(** What the five reads answer while an expired session is held:
    [getToken] alone still hands out the token. *)
Lemma expired_reads (self : t A) (s : SessionState) (now : Z) :
  currentSession self = Some s → now > expiresAt s →
  getSession now self = None ∧ getUser now self = None ∧
  isActive now self = false ∧ getTimeRemaining now self = 0 ∧
  getToken self = Some (token s).
Proof.
  intros Hs Hexp.
  assert (isExpired now self = true) as Hx.
  { unfold isExpired. rewrite Hs. apply Z.gtb_lt. lia. }
  unfold getUser, getSession, isActive, getTimeRemaining, getToken.
  rewrite Hs, Hx. simpl. split_and!; try done. lia.
Qed.

(** ** [expiresAt > createdAt] along a history *)






End SessionManagerProperties.

Section SessionManagerExamples.
Import SessionManager SessionHistory.

Lemma startSession_getSession_witness :
  getSession 1000 (startSession 1000 testUser "token_1_1000_abc" fresh)
  = Some (testUser, "token_1_1000_abc") ∧
  getSession 86401000 (startSession 1000 testUser "token_1_1000_abc" fresh)
  = Some (testUser, "token_1_1000_abc") ∧
  getSession 86401001 (startSession 1000 testUser "token_1_1000_abc" fresh)
  = None.
Proof.
  assert (0 < sessionDurationMs fresh) as Hd by (vm_compute; reflexivity).
  split_and!.
  - apply (proj1 (startSession_getSession fresh testUser _ 1000 1000 Hd)).
  - apply (proj1 (proj2 (startSession_getSession fresh testUser _
                           1000 86401000 Hd))).
    vm_compute. split; discriminate.
  - apply (proj2 (proj2 (startSession_getSession fresh testUser _
                           1000 86401001 Hd))).
    vm_compute. reflexivity.
Defined.

(** C5 at a concrete manager: one hour of session started at reading 0,
    read at 3600001. Every read reports no session except [getToken],
    which returns the token of the expired session. *)
Theorem getToken_exposes_expired_session :
  let self := startSession 0 testUser "token_1_0_abc"
                (constructor InMemoryStorageService.create 1 0) in
  isExpired 3600001 self = true ∧
  getSession 3600001 self = None ∧
  getUser 3600001 self = None ∧
  isActive 3600001 self = false ∧
  getTimeRemaining 3600001 self = 0 ∧
  getToken self = Some "token_1_0_abc".
Proof. vm_compute. by split_and!. Qed.



End SessionManagerExamples.

(* ===================================================================== *)
(** * Properties of the Login Use Case *)
(* ===================================================================== *)

Section LoginUseCaseProperties.
Import LoginUserUseCase.
Context {W : Type} `{AuthService W} `{SessionService W}.

Ltac run_monad :=
  unfold catchAll, try_finally, try_catch, authenticateAndStart, call,
    modify, reads, setLoading, mbind, M_bind, mret, M_ret; simpl.

(** The [try] block from the [await] on, the [catch] and the [finally]:
    what the call resolves to, case by case on what the collaborators
    do. *)
Lemma catchAll_authenticateAndStart (em pw : string) (self : t W) :
  catchAll (authenticateAndStart em pw) self =
  match authenticate em pw (services self) with
  | (w, Raised e) => (mk false w, Returned (LoginFailure (errorMessage e)))
  | (w, Returned (AuthFailure error)) =>
      (mk false w, Returned (LoginFailure error))
  | (w, Returned (AuthSuccess u tok)) =>
      match startSession u tok w with
      | (w', Raised e) =>
          (mk false w', Returned (LoginFailure (errorMessage e)))
      | (w', Returned _) => (mk false w', Returned (LoginSuccess u))
      end
  end.
Proof.
  run_monad.
  destruct (authenticate em pw (services self)) as [w [[u tok|error]|e]];
    simpl; [|done..].
  by destruct (startSession u tok w) as [w' [[]|e]].
Qed.

Lemma execute_cases (em pw : string) (self : t W) :
  execute em pw self =
  if isLoading self then (self, Returned (LoginFailure "Login en progreso"))
  else match validateInput em pw with
       | Some validationError =>
           (mk false (services self),
            Returned (LoginFailure validationError))
       | None =>
           catchAll (authenticateAndStart em pw) (mk true (services self))
       end.
Proof.
  unfold execute. destruct (isLoading self); [done|].
  destruct (validateInput em pw); [|done]. by run_monad.
Qed.

(** Running [execute] in one go is entering it and then resuming it. *)
Lemma execute_split (em pw : string) (self : t W) :
  execute em pw self =
  match execute_enter em pw self with
  | (self1, p) => execute_resume p self1
  end.
Proof.
  rewrite execute_cases. unfold execute_enter.
  destruct (isLoading self); [done|].
  destruct (validateInput em pw); [|done]. by run_monad.
Qed.

Lemma execute_enter_awaiting (em pw em' pw' : string) (self self1 : t W) :
  execute_enter em pw self = (self1, Awaiting em' pw') →
  isLoading self = false ∧ self1 = mk true (services self)
  ∧ em' = em ∧ pw' = pw.
Proof.
  unfold execute_enter. destruct (isLoading self); [done|].
  destruct (validateInput em pw).
  - run_monad. discriminate.
  - by intros [= <- <- <-].
Qed.

(** C3, as the code has it. While a call of [execute] is suspended on its
    [authenticate], a second call on the same instance returns at once
    [{success: false, error: "Login en progreso"}]: it is resolved without
    reaching the [await], so [authenticate] is not invoked again, and it
    leaves the instance and its collaborators untouched. *)
Theorem execute_rejects_overlap (em1 pw1 em2 pw2 : string)
    (self self1 : t W) :
  execute_enter em1 pw1 self = (self1, Awaiting em1 pw1) →
  execute_enter em2 pw2 self1
  = (self1, Resolved (Returned (LoginFailure "Login en progreso"))) ∧
  execute em2 pw2 self1
  = (self1, Returned (LoginFailure "Login en progreso")).
Proof.
  intros Hfirst.
  apply execute_enter_awaiting in Hfirst as (_ & -> & _).
  by rewrite execute_cases.
Qed.

(** C4. [execute] always resolves to a result and never to a thrown
    value: what [authenticate] or [startSession] throws becomes
    [{success: false, error}] with the message of the [Error], or the
    generic message when the thrown value is no [Error]. [logout]
    resolves to [{success: false}] when [endSession] throws and to
    [{success: true}] when it returns. *)
Theorem no_exception_escapes (em pw : string) (self : t W) :
  (∃ self' r, execute em pw self = (self', Returned r)) ∧
  (isLoading self = false → validateInput em pw = None →
   ∀ w e, authenticate em pw (services self) = (w, Raised e) →
     execute em pw self
     = (mk false w, Returned (LoginFailure (errorMessage e)))) ∧
  (isLoading self = false → validateInput em pw = None →
   ∀ w u tok w' e,
     authenticate em pw (services self) = (w, Returned (AuthSuccess u tok)) →
     startSession u tok w = (w', Raised e) →
     execute em pw self
     = (mk false w', Returned (LoginFailure (errorMessage e)))) ∧
  (∀ message, errorMessage (ThrownError message) = message) ∧
  (∀ w e, endSession (services self) = (w, Raised e) →
     logout self = (mk (isLoading self) w, Returned (mkLogoutResult false))) ∧
  (∀ w, endSession (services self) = (w, Returned tt) →
     logout self = (mk (isLoading self) w, Returned (mkLogoutResult true))).
Proof.
  split_and!.
  - rewrite execute_cases. destruct (isLoading self); [by eauto|].
    destruct (validateInput em pw); [by eauto|].
    rewrite catchAll_authenticateAndStart. simpl.
    destruct (authenticate em pw (services self)) as [w [[u tok|error]|e]];
      [|by eauto..].
    destruct (startSession u tok w) as [w' [[]|e]]; by eauto.
  - intros Hidle Hvalid w e Hauth.
    rewrite execute_cases, Hidle, Hvalid, catchAll_authenticateAndStart.
    simpl. by rewrite Hauth.
  - intros Hidle Hvalid w u tok w' e Hauth Hstart.
    rewrite execute_cases, Hidle, Hvalid, catchAll_authenticateAndStart.
    simpl. by rewrite Hauth, Hstart.
  - done.
  - intros w e Hend. unfold logout. run_monad. by rewrite Hend.
  - intros w Hend. unfold logout. run_monad. by rewrite Hend.
Qed.

Lemma getAuthState_isLoading (self st : t W) (a : AuthState.t) :
  getAuthState self = (st, Returned a) →
  AuthState.isLoading a = isLoading self.
Proof.
  unfold getAuthState. run_monad.
  destruct (getSession (services self)) as [w1 [session|e]]; [|done].
  simpl. destruct (isActive w1) as [w2 [active|e]]; [|done].
  simpl. by intros [= <- <-].
Qed.

Lemma execute_isLoading (em pw : string) (self : t W) :
  isLoading (execute em pw self).1 = isLoading self.
Proof.
  rewrite execute_cases. destruct (isLoading self) eqn:Hl; [done|].
  destruct (validateInput em pw); [done|].
  rewrite catchAll_authenticateAndStart. simpl.
  destruct (authenticate em pw (services self)) as [w [[u tok|error]|e]];
    [|done..].
  by destruct (startSession u tok w) as [w' [[]|e]].
Qed.

(** C9. A call of [execute] entered with the flag down leaves it down
    when it resolves, whichever way it ends: rejected input, failed
    authentication, success, or an exception caught. The next [execute]
    is therefore not turned away as a login in progress, and
    [getAuthState()] reports [isLoading: false]. *)
Theorem execute_releases_loading (em pw : string) (self : t W) :
  isLoading self = false →
  isLoading (execute em pw self).1 = false ∧
  (∀ self1 p, execute_enter em pw self = (self1, p) →
              isLoading (execute_resume p self1).1 = false) ∧
  (∀ em' pw',
     (execute_enter em' pw' (execute em pw self).1).2
     ≠ Resolved (Returned (LoginFailure "Login en progreso"))) ∧
  (∀ st a, getAuthState (execute em pw self).1 = (st, Returned a) →
           AuthState.isLoading a = false).
Proof.
  intros Hidle.
  assert (isLoading (execute em pw self).1 = false) as Hdone
    by by rewrite execute_isLoading.
  split_and!; [done| | |].
  - intros self1 p Henter. rewrite execute_split, Henter in Hdone. done.
  - intros em' pw'. unfold execute_enter. rewrite Hdone.
    destruct (validateInput em' pw') as [validationError|] eqn:Hv;
      [|discriminate].
    run_monad. intros [= ->]. unfold validateInput in Hv.
    repeat case_match; discriminate Hv.
  - intros st a Hget. apply getAuthState_isLoading in Hget. congruence.
Qed.

End LoginUseCaseProperties.

Section LoginUseCaseExamples.
Import LoginUserUseCase.

(** The end-to-end scenario on the assembled application. *)
Example login_scenario :
  (execute "test@test.com" "123456" demo).2
  = Returned (LoginSuccess (mkUser "1" "test@test.com" "Usuario Test")) ∧
  (getAuthState (execute "test@test.com" "123456" demo).1).2
  = Returned (AuthState.mk true
                (Some (mkUser "1" "test@test.com" "Usuario Test")) false) ∧
  (execute "bad@test.com" "wrong" demo).2
  = Returned (LoginFailure "Credenciales inválidas").
Proof. vm_compute. by split_and!. Qed.

(** C3 as stated fails on the message: the second call is turned away
    with "Login en progreso", not with "login in progress". *)
Lemma overlapping_execute_message :
  let self1 := (execute_enter "test@test.com" "123456" demo).1 in
  (execute_enter "test@test.com" "123456" demo).2
  = Awaiting "test@test.com" "123456" ∧
  (execute_enter "admin@test.com" "admin123" self1).2
  ≠ Resolved (Returned (LoginFailure "login in progress")).
Proof.
  split; [vm_compute; reflexivity|].
  intros Heq. vm_compute in Heq. discriminate Heq.
Qed.

Lemma execute_rejects_overlap_witness :
  let self1 := mk true (services demo) in
  execute_enter "admin@test.com" "admin123" self1
  = (self1, Resolved (Returned (LoginFailure "Login en progreso"))) ∧
  execute "admin@test.com" "admin123" self1
  = (self1, Returned (LoginFailure "Login en progreso")).
Proof.
  apply (execute_rejects_overlap "test@test.com" "123456"
           "admin@test.com" "admin123" demo).
  vm_compute. reflexivity.
Defined.

Lemma no_exception_escapes_witness :
  let down := Doubles.mk (Some (ThrownError "network down")) None None in
  let full := Doubles.mk None (Some (ThrownValue "42"))
                (Some (ThrownError "storage unavailable")) in
  execute "a@b.co" "secret" (mk false down)
  = (mk false down, Returned (LoginFailure "network down")) ∧
  execute "a@b.co" "secret" (mk false full)
  = (mk false full,
     Returned (LoginFailure "Error desconocido durante el login")) ∧
  logout (mk false full) = (mk false full, Returned (mkLogoutResult false)) ∧
  logout (mk false down) = (mk false down, Returned (mkLogoutResult true)).
Proof.
  intros down full.
  destruct (no_exception_escapes "a@b.co" "secret" (mk false down))
    as (_ & Hauth & _ & _ & _ & Hout).
  destruct (no_exception_escapes "a@b.co" "secret" (mk false full))
    as (_ & _ & Hstart & _ & Hend & _).
  split_and!.
  - apply (Hauth eq_refl eq_refl down (ThrownError "network down")).
    reflexivity.
  - apply (Hstart eq_refl eq_refl full Doubles.user "token" full
             (ThrownValue "42")); reflexivity.
  - apply (Hend full (ThrownError "storage unavailable")). reflexivity.
  - apply (Hout down). reflexivity.
Defined.

Lemma execute_releases_loading_witness :
  let full := Doubles.mk None (Some (ThrownError "storage unavailable"))
                None in
  isLoading (execute "test@test.com" "123456" demo).1 = false ∧
  isLoading (execute "bad@test.com" "wrong" demo).1 = false ∧
  isLoading (execute "not an email" "wrong" demo).1 = false ∧
  isLoading (execute "a@b.co" "secret" (mk false full)).1 = false ∧
  isLoading
    (execute_resume (Awaiting "a@b.co" "secret") (mk true full)).1 = false ∧
  AuthState.isLoading
    (AuthState.mk true (Some (mkUser "1" "test@test.com" "Usuario Test"))
       false) = false.
Proof.
  intros full. split_and!.
  - apply (execute_releases_loading "test@test.com" "123456" demo eq_refl).
  - apply (execute_releases_loading "bad@test.com" "wrong" demo eq_refl).
  - apply (execute_releases_loading "not an email" "wrong" demo eq_refl).
  - apply (execute_releases_loading "a@b.co" "secret" (mk false full)
             eq_refl).
  - apply (proj1 (proj2 (execute_releases_loading "a@b.co" "secret"
                           (mk false full) eq_refl))
             (mk true full) (Awaiting "a@b.co" "secret")).
    reflexivity.
  - apply (proj2 (proj2 (proj2 (execute_releases_loading "test@test.com"
                                  "123456" demo eq_refl)))
             (getAuthState (execute "test@test.com" "123456" demo).1).1).
    vm_compute. reflexivity.
Defined.

End LoginUseCaseExamples.

(* ===================================================================== *)
(** * Further properties of the Authenticator *)
(* ===================================================================== *)

Section AuthenticatorMore.
Import AuthServiceImpl.

(** X1. The token a successful [authenticate] returns is valid right away,
    it is the token generated for the id of the returned user, and every
    token that was valid before the call is still valid after it. *)
Theorem authenticate_success_token_valid (now : Z) (random em pw : string)
    (self : t) (u : User) (tok : string) :
  (authenticate now random em pw self).2 = AuthSuccess u tok →
  tok = generateToken (id u) now random ∧
  validateToken tok (authenticate now random em pw self).1 = true ∧
  ∀ s, validateToken s self = true →
       validateToken s (authenticate now random em pw self).1 = true.
Proof.
  unfold authenticate.
  destruct (falsy em || falsy pw); simpl; [discriminate|].
  destruct (findValidUser em pw) as [v|]; simpl; [|discriminate].
  intros [= <- <-]. split; [done|]. split.
  - apply validateToken_spec. simpl.
    apply elem_of_union_l. by apply elem_of_singleton.
  - intros s Hs. apply validateToken_spec in Hs.
    apply validateToken_spec. simpl. by apply elem_of_union_r.
Qed.

Lemma authenticate_success_token_valid_witness :
  validateToken "token_2_1700000000000_k3j9"
    (authenticate 1700000000000 "k3j9" "admin@test.com" "admin123"
       (mk {["token_1_5_abc"]})).1 = true ∧
  validateToken "token_1_5_abc"
    (authenticate 1700000000000 "k3j9" "admin@test.com" "admin123"
       (mk {["token_1_5_abc"]})).1 = true.
Proof.
  destruct (authenticate_success_token_valid 1700000000000 "k3j9"
              "admin@test.com" "admin123" (mk {["token_1_5_abc"]})
              (mkUser "2" "admin@test.com" "Administrador")
              "token_2_1700000000000_k3j9" eq_refl) as (_ & Hnew & Hold).
  split; [exact Hnew|]. apply Hold. reflexivity.
Defined.

(** X2. An empty email or an empty password is refused with
    "Email y contraseña son requeridos" before the registry is looked at,
    whatever the other field holds, and the instance is left as it was. *)
Theorem authenticate_requires_both_fields (now : Z) (random em pw : string)
    (self : t) :
  em = "" ∨ pw = "" →
  authenticate now random em pw self
  = (self, AuthFailure "Email y contraseña son requeridos").
Proof.
  intros Hempty. unfold authenticate.
  assert (falsy em || falsy pw = true) as ->; [|done].
  apply orb_true_iff. destruct Hempty as [->| ->]; [by left|by right].
Qed.

Lemma authenticate_requires_both_fields_witness :
  authenticate 7 "r" "test@test.com" "" create
  = (create, AuthFailure "Email y contraseña son requeridos") ∧
  authenticate 7 "r" "" "123456" create
  = (create, AuthFailure "Email y contraseña son requeridos").
Proof.
  split.
  - apply (authenticate_requires_both_fields 7 "r" "test@test.com" "").
    by right.
  - apply (authenticate_requires_both_fields 7 "r" "" "123456"). by left.
Defined.

(** X3. A token determines the user id, the clock reading and the random
    suffix it was generated from, for user ids without an underscore (the
    ids of the registry and "refreshed"): tokens generated for different
    users, or at different readings of the clock, are different strings. *)
Theorem generateToken_injective (uid uid' : string) (ts ts' : Z)
    (r r' : string) :
  noUnderscore uid = true → noUnderscore uid' = true →
  (generateToken uid ts r = generateToken uid' ts' r'
   ↔ uid = uid' ∧ ts = ts' ∧ r = r').
Proof.
  intros Hu Hu'. split.
  - by apply generateToken_inj.
  - by intros (-> & -> & ->).
Qed.

Lemma generateToken_injective_witness :
  generateToken "1" 5 "abc" = generateToken "refreshed" 5 "abc"
  ↔ "1" = "refreshed" ∧ 5 = 5 ∧ "abc" = "abc".
Proof.
  apply (generateToken_injective "1" "refreshed" 5 5 "abc" "abc");
    reflexivity.
Defined.

(** X4. [refreshToken] touches two tokens only: a string other than the
    refreshed token and the newly generated one is valid after the call
    exactly when it was before. *)
Theorem refreshToken_keeps_other_tokens (now : Z) (random t0 s : string)
    (self : t) :
  s ≠ t0 → s ≠ generateToken "refreshed" now random →
  validateToken s (refreshToken now random t0 self).1 = validateToken s self.
Proof.
  intros Ht0 Hnew. unfold refreshToken.
  destruct (negb _); simpl; [done|].
  unfold validateToken. apply bool_decide_ext. simpl.
  rewrite elem_of_union, elem_of_difference, !elem_of_singleton.
  split; [by intros [?|[? _]]|by right].
Qed.

Lemma refreshToken_keeps_other_tokens_witness :
  let self := mk {["token_1_5_abc"; "token_2_6_def"]} in
  validateToken "token_2_6_def"
    (refreshToken 900 "zz" "token_1_5_abc" self).1
  = validateToken "token_2_6_def" self.
Proof.
  apply (refreshToken_keeps_other_tokens 900 "zz" "token_1_5_abc"
           "token_2_6_def"); discriminate.
Defined.

Lemma step_valid_or_returned (c : AuthHistory.call) (self : t) (s : string) :
  s ∈ validTokens (AuthHistory.step c self).1 →
  s ∈ validTokens self ∨ (AuthHistory.step c self).2 = Some s.
Proof.
  destruct c as [now random em pw|now random t0]; simpl.
  - unfold authenticate. destruct (falsy em || falsy pw); simpl; [by left|].
    destruct (findValidUser em pw); simpl; [|by left].
    rewrite elem_of_union, elem_of_singleton. intros [->|?]; [by right|by left].
  - unfold refreshToken. destruct (negb _); simpl; [by left|].
    rewrite elem_of_union, elem_of_difference, elem_of_singleton.
    intros [->|[? _]]; [by right|by left].
Qed.

Lemma run_valid_or_returned (calls : list AuthHistory.call) (self : t)
    (s : string) :
  s ∈ validTokens (AuthHistory.run calls self).1 →
  s ∈ validTokens self ∨ s ∈ (AuthHistory.run calls self).2.
Proof.
  revert self. induction calls as [|c calls IH]; intros self; simpl;
    [by left|].
  pose proof (step_valid_or_returned c self s) as Hstep.
  specialize (IH (AuthHistory.step c self).1).
  destruct (AuthHistory.step c self) as [self' returned]. simpl in *.
  destruct (AuthHistory.run calls self') as [self'' tokens]. simpl in *.
  intros Hin. destruct (IH Hin) as [Hprev|Hlater].
  - destruct (Hstep Hprev) as [?| ->]; [by left|].
    right. apply elem_of_app. left. simpl. apply list_elem_of_here.
  - right. apply elem_of_app. by right.
Qed.

(** X5. After any history of [authenticate] and [refreshToken] calls on a
    new Authenticator, [validateToken] accepts only strings that one of
    those calls has returned as a token: a string never issued is never
    valid. *)
Theorem only_issued_tokens_validate (calls : list AuthHistory.call)
    (s : string) :
  validateToken s (AuthHistory.run calls create).1 = true →
  s ∈ (AuthHistory.run calls create).2.
Proof.
  intros Hs. apply validateToken_spec in Hs.
  apply run_valid_or_returned in Hs as [Hs|Hs]; [|done].
  simpl in Hs. by apply elem_of_empty in Hs.
Qed.

Lemma only_issued_tokens_validate_witness :
  let calls := [AuthHistory.Authenticate 5 "abc" "test@test.com" "123456";
                AuthHistory.Authenticate 6 "x" "bad@test.com" "wrong";
                AuthHistory.RefreshToken 200 "zz" "token_1_5_abc"] in
  (AuthHistory.run calls create).2
  = ["token_1_5_abc"; "token_refreshed_200_zz"] ∧
  "token_refreshed_200_zz" ∈ (AuthHistory.run calls create).2.
Proof.
  intros calls. split; [vm_compute; reflexivity|].
  apply (only_issued_tokens_validate calls "token_refreshed_200_zz").
  vm_compute. reflexivity.
Defined.

Lemma refreshToken_invalidates_issued_witness :
  let self := (authenticate 5 "abc" "test@test.com" "123456" create).1 in
  ∃ t', (refreshToken 200 "zz" "token_1_5_abc" self).2 = Some t'
        ∧ (t' ∉ validTokens self)
        ∧ validateToken "token_1_5_abc"
            (refreshToken 200 "zz" "token_1_5_abc" self).1 = false
        ∧ validateToken t'
            (refreshToken 200 "zz" "token_1_5_abc" self).1 = true.
Proof.
  intros self.
  apply (refreshToken_invalidates_issued 5 200 "zz" "token_1_5_abc" self).
  - apply (authenticate_issued 5 5); [lia|]. intros tok Hin.
    simpl in Hin. by apply elem_of_empty in Hin.
  - lia.
  - apply validateToken_spec. vm_compute. reflexivity.
Defined.

(** X7. [MockAuthService]: [authenticate] succeeds exactly when the mock
    is set to succeed and both fields are non-empty, and the token it
    returns passes the mock's [validateToken]; the token its
    [refreshToken] returns does not. *)
Theorem mock_auth_tokens (self : MockAuthService.t) (em pw : string) :
  (MockAuthService.authenticate em pw self
   = (if MockAuthService.shouldSucceed self
         && bool_decide (em ≠ "") && bool_decide (pw ≠ "")
      then AuthSuccess MockAuthService.mockUser "mock-token"
      else AuthFailure "Mock error")) ∧
  (∀ u tok, MockAuthService.authenticate em pw self = AuthSuccess u tok →
            MockAuthService.validateToken tok = true) ∧
  (∀ tok, MockAuthService.refreshToken self = Some tok →
          MockAuthService.validateToken tok = false).
Proof.
  split_and!.
  - unfold MockAuthService.authenticate, falsy.
    destruct (MockAuthService.shouldSucceed self),
             (String.eqb_spec em "") as [->|He],
             (String.eqb_spec pw "") as [->|Hp];
      simpl; repeat case_bool_decide; simpl; done.
  - unfold MockAuthService.authenticate. intros u tok.
    destruct (_ && _ && _); [by intros [= _ <-]|discriminate].
  - unfold MockAuthService.refreshToken. intros tok.
    destruct (MockAuthService.shouldSucceed self);
      [by intros [= <-]|discriminate].
Qed.

Lemma mock_auth_tokens_witness :
  MockAuthService.validateToken "mock-token" = true ∧
  MockAuthService.validateToken "new-mock-token" = false.
Proof.
  destruct (mock_auth_tokens (MockAuthService.mk true) "a" "b")
    as (_ & Hauth & Hrefresh).
  split.
  - apply (Hauth MockAuthService.mockUser). reflexivity.
  - apply Hrefresh. reflexivity.
Defined.

End AuthenticatorMore.

(* ===================================================================== *)
(** * Further properties of the Session Store Adapters *)
(* ===================================================================== *)

Section StorageAdaptersMore.
Context {T : Type} {codec : Json T}.

Lemma string_app_assoc (a b c : string) :
  (a +:+ b) +:+ c = a +:+ (b +:+ c).
Proof.
  induction a as [|x a IH]; [done|].
  change (String x ((a +:+ b) +:+ c) = String x (a +:+ (b +:+ c))).
  by rewrite IH.
Qed.

Lemma buildKey_inj (p k k' : string) :
  LocalStorageService.buildKey p k = LocalStorageService.buildKey p k' →
  k = k'.
Proof. unfold LocalStorageService.buildKey. apply (inj (String.app p)). Qed.

(** X8. Through one [LocalStorageService], keys do not interfere:
    [get(key)] after [remove(key)] is [null]; [set] and [remove] on one key
    leave [get] on every other key, and every entry of [localStorage]
    stored under another full key, as they were. *)
Theorem localStorage_adapter_keys (p k k' raw : string) (v : T)
    (ls : gmap string string) :
  LocalStorageService.get p k (LocalStorageService.remove p k ls)
    = None (A:=T) ∧
  (k' ≠ k →
   LocalStorageService.get p k' (LocalStorageService.set p k v ls)
     = LocalStorageService.get p k' ls (T:=T) ∧
   LocalStorageService.get p k' (LocalStorageService.remove p k ls)
     = LocalStorageService.get p k' ls (T:=T)) ∧
  (raw ≠ LocalStorageService.buildKey p k →
   LocalStorageService.set p k v ls !! raw = ls !! raw ∧
   LocalStorageService.remove p k ls !! raw = ls !! raw).
Proof.
  unfold LocalStorageService.get, LocalStorageService.set,
    LocalStorageService.remove, Storage.getItem, Storage.setItem,
    Storage.removeItem.
  split_and!.
  - by rewrite lookup_delete_eq.
  - intros Hne.
    assert (LocalStorageService.buildKey p k
            ≠ LocalStorageService.buildKey p k') as Hkeys
      by (intros Heq; by apply buildKey_inj in Heq).
    by rewrite lookup_insert_ne, lookup_delete_ne.
  - intros Hraw. by rewrite lookup_insert_ne, lookup_delete_ne.
Qed.

(** X9. Two adapters on the one [localStorage]: [clear()] of the adapter
    with prefix [p1] leaves [get] of another adapter untouched on every key
    whose full key does not start with [p1], and wipes every key of an
    adapter whose own prefix starts with [p1]. *)
Theorem clear_across_adapters (p1 p2 q k : string)
    (ls : gmap string string) :
  (String.prefix p1 (p2 +:+ k) = false →
   LocalStorageService.get p2 k (LocalStorageService.clear p1 ls)
     = LocalStorageService.get p2 k ls (T:=T)) ∧
  LocalStorageService.get (p1 +:+ q) k (LocalStorageService.clear p1 ls)
    = None (A:=T).
Proof.
  unfold LocalStorageService.get, Storage.getItem,
    LocalStorageService.buildKey.
  split.
  - intros Hout. by rewrite clear_lookup, Hout.
  - by rewrite clear_lookup, string_app_assoc, prefix_app.
Qed.

Lemma inMemory_as_localStorage (p : string) (c : StorageHistory.call T)
    (mem : InMemoryStorageService.t) (ls : gmap string string) :
  (∀ k, InMemoryStorageService.storage mem !! k = ls !! (p +:+ k)) →
  ∀ k, InMemoryStorageService.storage (StorageHistory.step c mem) !! k
       = LocalStorageService.localStorage
           (StorageHistory.step c (LocalStorageService.mk p ls)) !! (p +:+ k).
Proof.
  intros Hrel k. destruct c as [key value|key|]; simpl.
  - unfold LocalStorageService.set, Storage.setItem,
      LocalStorageService.buildKey.
    destruct (decide (key = k)) as [->|Hne].
    + by rewrite !lookup_insert_eq.
    + rewrite !lookup_insert_ne; [done|..|done].
      intros Heq. by apply (inj (String.app p)) in Heq.
  - unfold LocalStorageService.remove, Storage.removeItem,
      LocalStorageService.buildKey.
    destruct (decide (key = k)) as [->|Hne].
    + by rewrite !lookup_delete_eq.
    + rewrite !lookup_delete_ne; [done|..|done].
      intros Heq. by apply (inj (String.app p)) in Heq.
  - by rewrite clear_lookup, prefix_app, lookup_empty.
Qed.

(** X10. The two adapters cannot be told apart through the interface: from
    stores that hold the same entries (the in-memory keys being the
    [localStorage] keys without the prefix), every history of [set],
    [remove] and [clear] calls leaves them answering every [get] alike.
    [JSON.parse] is taken to reject the empty text. *)
Theorem adapters_agree (p : string) (calls : list (StorageHistory.call T))
    (mem : InMemoryStorageService.t) (ls : gmap string string)
    (key : string) :
  parse "" = None (A:=T) →
  (∀ k, InMemoryStorageService.storage mem !! k = ls !! (p +:+ k)) →
  storage_get key (StorageHistory.run calls mem)
  = storage_get key
      (StorageHistory.run calls (LocalStorageService.mk p ls)) (T:=T).
Proof.
  intros Hempty. revert mem ls.
  induction calls as [|c calls IH]; intros mem ls Hrel.
  - simpl. unfold InMemoryStorageService.get, LocalStorageService.get,
      Storage.getItem, LocalStorageService.buildKey. simpl.
    rewrite Hrel. destruct (ls !! (p +:+ key)) as [item|]; [|done].
    destruct (String.eqb_spec item "") as [->|]; done.
  - unfold StorageHistory.run. simpl.
    pose proof (inMemory_as_localStorage p c mem ls Hrel) as Hstep.
    destruct (StorageHistory.step c (LocalStorageService.mk p ls))
      as [p' ls'] eqn:Hc.
    assert (p' = p) as -> by (by destruct c; injection Hc as <- _).
    by apply IH.
Qed.

End StorageAdaptersMore.

Lemma localStorage_adapter_keys_witness :
  let s := SessionManager.mkSessionState testUser "tok" 5 10 in
  let ls : gmap string string := {[ "poo_demo_theme" := "dark" ]} in
  LocalStorageService.get "poo_demo_" "theme"
    (LocalStorageService.set "poo_demo_" "session" s ls)
  = LocalStorageService.get "poo_demo_" "theme" ls
      (T:=SessionManager.SessionState) ∧
  LocalStorageService.remove "poo_demo_" "session" ls !! "poo_demo_theme"
  = Some "dark".
Proof.
  intros s ls.
  destruct (localStorage_adapter_keys (codec:=FieldCodec.json) "poo_demo_"
              "session" "theme" "poo_demo_theme" s ls)
    as (_ & Hget & Hraw).
  split.
  - apply Hget. discriminate.
  - rewrite (proj2 (Hraw ltac:(discriminate))). reflexivity.
Defined.

Lemma clear_across_adapters_witness :
  let ls : gmap string string :=
    {[ "app_session" := "a"; "app_admin_session" := "b";
       "poo_demo_session" := "c" ]} in
  LocalStorageService.get "poo_demo_" "session"
    (LocalStorageService.clear "app_" ls)
  = LocalStorageService.get "poo_demo_" "session" ls
      (T:=SessionManager.SessionState).
Proof.
  intros ls.
  apply (proj1 (clear_across_adapters (codec:=FieldCodec.json)
                  "app_" "poo_demo_" "" "session" ls)).
  reflexivity.
Defined.

Lemma adapters_agree_witness :
  let s := SessionManager.mkSessionState testUser "tok" 5 10 in
  let calls := [StorageHistory.Set_ "session" s; StorageHistory.Clear;
                StorageHistory.Set_ "session" s;
                StorageHistory.Remove "other"] in
  storage_get "session"
    (StorageHistory.run calls InMemoryStorageService.create)
  = storage_get "session"
      (StorageHistory.run calls
         (LocalStorageService.mk "poo_demo_" {[ "theme" := "dark" ]}))
      (T:=SessionManager.SessionState).
Proof.
  intros s calls.
  apply (adapters_agree (codec:=FieldCodec.json) "poo_demo_" calls
           InMemoryStorageService.create {[ "theme" := "dark" ]} "session").
  - reflexivity.
  - intros k. simpl. rewrite lookup_empty. symmetry.
    apply lookup_singleton_ne. intros Heq.
    destruct k; discriminate Heq.
Defined.

(* ===================================================================== *)
(** * Further properties of the Session Manager *)
(* ===================================================================== *)

Global Instance localStorage_laws : StorageLaws LocalStorageService.t.
Proof.
  split.
  - intros T codec key value [p ls] Hround _. simpl.
    unfold LocalStorageService.get, LocalStorageService.set,
      Storage.getItem, Storage.setItem.
    by rewrite lookup_insert_eq.
  - intros T codec key [p ls]. simpl.
    unfold LocalStorageService.get, LocalStorageService.remove,
      Storage.getItem, Storage.removeItem.
    by rewrite lookup_delete_eq.
Qed.

Global Instance inMemory_laws : StorageLaws InMemoryStorageService.t.
Proof.
  split.
  - intros T codec key value [m] Hround Hne. simpl.
    unfold InMemoryStorageService.get, InMemoryStorageService.set. simpl.
    rewrite lookup_insert_eq.
    by destruct (String.eqb_spec (stringify value) "").
  - intros T codec key [m]. simpl.
    unfold InMemoryStorageService.get, InMemoryStorageService.remove. simpl.
    by rewrite lookup_delete_eq.
Qed.

Section SessionManagerMore.
Import SessionManager SessionHistory.
Context {A : Type} `{StorageLaws A} {codec : Json SessionState}.

(** X11. The reads of a Session Manager agree with one another at every
    reading of the clock: [isActive] is true exactly when [getSession]
    returns a session, [getUser] is the user of that session, [getToken]
    is its token while it is active, and a positive [getTimeRemaining]
    means an active session. At the very reading [expiresAt] the session is
    still active with no time remaining. *)
Theorem reads_agree (self : t A) (now : Z) :
  (isActive now self = true ↔ is_Some (getSession now self)) ∧
  getUser now self = fst <$> getSession now self ∧
  (isActive now self = true → getToken self = snd <$> getSession now self) ∧
  (0 < getTimeRemaining now self → isActive now self = true) ∧
  (∀ s, currentSession self = Some s → now = expiresAt s →
        isActive now self = true ∧ getTimeRemaining now self = 0).
Proof.
  unfold isActive, getUser, getSession, getToken, getTimeRemaining, isExpired.
  destruct (currentSession self) as [s|]; simpl.
  - destruct (Z.gtb_spec now (expiresAt s)) as [Hexp|Hlive]; simpl.
    + split_and!.
      * split; [done|]. by intros [? ?].
      * done.
      * done.
      * lia.
      * intros s' [= <-] ->. lia.
    + split_and!.
      * done.
      * by rewrite !copy_user.
      * done.
      * done.
      * intros s' [= <-] ->. split; [done|lia].
  - split_and!.
    + split; [done|]. by intros [? ?].
    + done.
    + done.
    + lia.
    + done.
Qed.

Lemma getTimeRemaining_startSession (self : t A) (u : User) (tok : string)
    (now later : Z) :
  getTimeRemaining later (startSession now u tok self)
  = Z.max 0 (now + sessionDurationMs self - later).
Proof. unfold getTimeRemaining. by rewrite startSession_current. Qed.

(** X12. [getTimeRemaining] is never negative and never grows as the clock
    advances. For a manager of a whole number of hours (at most 10^8) and a
    reading of the clock within the range of a [Date], it is the whole
    session duration right after [startSession] and never more than it
    afterwards. *)
Theorem getTimeRemaining_bounds (self : t A) (u : User) (tok : string)
    (hours now later : Z) :
  0 ≤ getTimeRemaining now self ∧
  (now ≤ later → getTimeRemaining later self ≤ getTimeRemaining now self) ∧
  (sessionDurationMs self = hours * 60 * 60 * 1000 →
   0 ≤ hours ≤ 100000000 → 0 ≤ now ≤ 8640000000000000 →
   getTimeRemaining now (startSession now u tok self) = hours * 3600000 ∧
   (now ≤ later →
    getTimeRemaining later (startSession now u tok self) ≤ hours * 3600000)).
Proof.
  split_and!.
  - unfold getTimeRemaining. destruct (currentSession self); lia.
  - intros Hle. unfold getTimeRemaining.
    destruct (currentSession self); lia.
  - intros Hd Hh Hnow. rewrite !getTimeRemaining_startSession. lia.
Qed.

(** X13. [extendSession] moves [expiresAt] of an active session to the
    second reading of the clock plus the session duration and keeps its
    user, token and [createdAt]; on a manager without an active session,
    absent or expired, it changes nothing, so an expired session is never
    revived. *)
Theorem extendSession_cases (self : t A) (now now' : Z) :
  (isActive now self = false → extendSession now now' self = self) ∧
  (∀ s, currentSession self = Some s → now ≤ expiresAt s →
        currentSession (extendSession now now' self)
        = Some (mkSessionState (user s) (token s) (createdAt s)
                  (now' + sessionDurationMs self))).
Proof.
  unfold extendSession, isActive, isExpired. split.
  - destruct (currentSession self) as [s|]; [|done].
    by intros ->.
  - intros s -> Hlive.
    destruct (Z.gtb_spec now (expiresAt s)); [lia|done].
Qed.

(** X14. What [startSession] persists is found again by a Session Manager
    constructed later over the same store, of whatever duration: it holds
    the very session when constructed before [expiresAt]; constructed at
    [expiresAt] or later it holds none and has removed the record. The
    serializer is taken to round-trip the session. *)
Theorem session_survives_reconstruction (self : t A) (u : User)
    (tok : string) (now later hours : Z) :
  let s := mkSessionState u tok now (now + sessionDurationMs self) in
  let reborn := constructor (storage (startSession now u tok self))
                  hours later in
  parse (stringify s) = Some s → stringify s ≠ "" →
  (later < expiresAt s → currentSession reborn = Some s) ∧
  (expiresAt s ≤ later →
   currentSession reborn = None ∧
   storage_get sessionKey (storage reborn) = None (A:=SessionState)).
Proof.
  intros s reborn Hround Hne.
  assert (storage_get sessionKey (storage (startSession now u tok self))
          = Some s) as Hget.
  { unfold startSession. simpl. rewrite copy_user.
    by apply get_after_set. }
  subst reborn. unfold constructor, restoreSession.
  cbn [storage currentSession sessionDurationMs]. rewrite Hget.
  destruct (Z.gtb_spec (expiresAt s) later) as [Hlive|Hdead];
    cbn [storage currentSession].
  - split; [done|]. lia.
  - split; [lia|]. intros _. split; [done|].
    apply get_after_remove.
Qed.

(** X15. After [endSession] every read reports no session, at every
    reading of the clock, [getToken] included, and a Session Manager
    constructed later over the same store holds no session. *)
Theorem endSession_clears (self : t A) (now hours : Z) :
  getSession now (endSession self) = None ∧
  getUser now (endSession self) = None ∧
  getToken (endSession self) = None ∧
  isActive now (endSession self) = false ∧
  getTimeRemaining now (endSession self) = 0 ∧
  currentSession (constructor (storage (endSession self)) hours now) = None.
Proof.
  split_and!; try done.
  unfold constructor, restoreSession, endSession. simpl.
  by rewrite get_after_remove.
Qed.

End SessionManagerMore.

Section SessionManagerOnLocalStorage.
Import SessionManager SessionHistory.
Context {codec : Json SessionState}.

Lemma step_localStorage_frame (c : call) (self : t LocalStorageService.t)
    (raw : string) :
  raw ≠ LocalStorageService.prefix (storage self) +:+ sessionKey →
  LocalStorageService.prefix (storage (step c self))
  = LocalStorageService.prefix (storage self) ∧
  LocalStorageService.localStorage (storage (step c self)) !! raw
  = LocalStorageService.localStorage (storage self) !! raw.
Proof.
  intros Hraw.
  destruct c as [now u tok| |now now']; simpl.
  - unfold LocalStorageService.set, Storage.setItem. split; [done|].
    by rewrite lookup_insert_ne.
  - unfold LocalStorageService.remove, Storage.removeItem. split; [done|].
    by rewrite lookup_delete_ne.
  - unfold extendSession. destruct (currentSession self); [|done].
    destruct (negb _); [|done]. simpl.
    unfold LocalStorageService.set, Storage.setItem. split; [done|].
    by rewrite lookup_insert_ne.
Qed.

(** X16. A Session Manager over a [LocalStorageService] reads and writes
    one entry of [localStorage] only, the one under the adapter's prefix
    followed by "session": its construction and every history of
    [startSession], [endSession] and [extendSession] calls leave every
    other entry as it was. *)
Theorem session_manager_localStorage_frame (p : string)
    (ls : gmap string string) (hours now0 : Z) (calls : list call)
    (raw : string) :
  raw ≠ p +:+ "session" →
  LocalStorageService.localStorage
    (storage (run calls (constructor (LocalStorageService.mk p ls)
                           hours now0))) !! raw
  = ls !! raw.
Proof.
  intros Hraw.
  assert (∀ self : t LocalStorageService.t,
            LocalStorageService.prefix (storage self) = p →
            LocalStorageService.localStorage (storage (run calls self)) !! raw
            = LocalStorageService.localStorage (storage self) !! raw)
    as Hrun.
  { induction calls as [|c calls IH]; intros self Hp; [done|].
    unfold run. simpl. fold (run calls (step c self)).
    destruct (step_localStorage_frame c self raw) as [Hp' Hraw'];
      [by rewrite Hp|].
    rewrite IH; [done|]. by rewrite Hp'. }
  unfold constructor, restoreSession. simpl.
  destruct (LocalStorageService.get p sessionKey ls) as [stored|];
    [|by apply Hrun].
  destruct (expiresAt stored >? now0); rewrite Hrun; try done.
  simpl. unfold LocalStorageService.remove, Storage.removeItem.
  by rewrite lookup_delete_ne.
Qed.

(** X17. [endSession] twice in a row leaves a Session Manager, its store
    included, exactly as [endSession] once does. *)
Theorem endSession_idempotent (self : t LocalStorageService.t)
    (self' : t InMemoryStorageService.t) :
  endSession (endSession self) = endSession self ∧
  endSession (endSession self') = endSession self'.
Proof.
  unfold endSession. simpl.
  unfold LocalStorageService.remove, Storage.removeItem,
    InMemoryStorageService.remove. simpl.
  by rewrite !delete_delete_eq.
Qed.

End SessionManagerOnLocalStorage.

Section AuditableSessionManagerProperties.
Import AuditableSessionManager.
Context {A : Type} `{StorageService A} {codec : Json SessionManager.SessionState}
        {E : Type}.

Lemma auditable_step (c : call) (self : t A E) (e : E) :
  sessionManager (step c (self, e)).1
  = SessionHistory.step (inner c) (sessionManager self) ∧
  onSessionStart (step c (self, e)).1 = onSessionStart self ∧
  onSessionEnd (step c (self, e)).1 = onSessionEnd self ∧
  (step c (self, e)).2 = notify self e c.
Proof. by destruct c. Qed.

(** X18. With callbacks that act on a state of their own (they neither
    throw nor call back into the manager), an [AuditableSessionManager] is
    a Session Manager of 24 hours with the callbacks laid over it: after
    any history of [startSession] and [endSession] calls its session state
    is that of the wrapped manager after the same calls, and the callbacks
    have run once per call, in the order of the calls, [onSessionStart] on
    the user given to the call; a callback left out does nothing. *)
Theorem auditable_is_manager_with_callbacks (storage0 : A)
    (onStart : option (User → E → E)) (onEnd : option (E → E))
    (now0 : Z) (calls : list call) (e0 : E) :
  let self0 := constructor storage0 onStart onEnd now0 in
  sessionManager (run calls (self0, e0)).1
  = SessionHistory.run (inner <$> calls)
      (SessionManager.constructor storage0 24 now0) ∧
  (run calls (self0, e0)).2 = foldl (notify self0) e0 calls ∧
  ∀ now, getSession now (run calls (self0, e0)).1
         = SessionManager.getSession now
             (SessionHistory.run (inner <$> calls)
                (SessionManager.constructor storage0 24 now0)).
Proof.
  intros self0.
  assert (∀ (self : t A E) e,
            onSessionStart self = onStart → onSessionEnd self = onEnd →
            sessionManager (run calls (self, e)).1
            = SessionHistory.run (inner <$> calls) (sessionManager self) ∧
            (run calls (self, e)).2 = foldl (notify self0) e calls) as Hrun.
  { induction calls as [|c calls IH]; intros self e Hs He; [done|].
    unfold run, SessionHistory.run. simpl.
    fold (run calls (step c (self, e))).
    fold (SessionHistory.run (inner <$> calls)
            (SessionHistory.step (inner c) (sessionManager self))).
    destruct (auditable_step c self e) as (Hsm & Hs' & He' & Hnote).
    destruct (step c (self, e)) as [self' e'] eqn:Hstep. simpl in *.
    destruct (IH self' e') as [IH1 IH2]; [congruence..|].
    rewrite IH1, IH2, Hsm, Hnote. split; [done|].
    f_equal. destruct c; simpl; by rewrite ?Hs, ?He. }
  destruct (Hrun self0 e0 eq_refl eq_refl) as [Hsm He].
  split_and!; [done..|].
  intros now. unfold getSession. by rewrite Hsm.
Qed.

End AuditableSessionManagerProperties.

Section SessionManagerMoreExamples.
Import SessionManager SessionHistory.

Lemma extendSession_cases_witness :
  let self := startSession 0 testUser "token_1_0_abc"
                (constructor InMemoryStorageService.create 1 0) in
  extendSession 3600001 3600001 self = self ∧
  currentSession (extendSession 1000 1001 self)
  = Some (mkSessionState testUser "token_1_0_abc" 0 3601001).
Proof.
  intros self.
  destruct (extendSession_cases self 3600001 3600001) as [Hdead _].
  destruct (extendSession_cases self 1000 1001) as [_ Hlive].
  split.
  - apply Hdead. reflexivity.
  - apply (Hlive (mkSessionState testUser "token_1_0_abc" 0 3600000)).
    + reflexivity.
    + simpl. lia.
Defined.

Lemma reads_agree_witness :
  let self := startSession 0 testUser "token_1_0_abc"
                (constructor InMemoryStorageService.create 1 0) in
  isActive 3600000 self = true ∧ getTimeRemaining 3600000 self = 0 ∧
  getToken self = snd <$> getSession 5 self.
Proof.
  intros self.
  destruct (reads_agree self 3600000) as (_ & _ & _ & _ & Hedge).
  destruct (reads_agree self 5) as (_ & _ & Htoken & Hpos & _).
  destruct (Hedge (mkSessionState testUser "token_1_0_abc" 0 3600000)
              eq_refl eq_refl) as [Hactive Hzero].
  split_and!; [done..|].
  apply Htoken, Hpos. vm_compute. reflexivity.
Defined.

Lemma getTimeRemaining_bounds_witness :
  getTimeRemaining 1000 (startSession 1000 testUser "t" fresh) = 86400000 ∧
  getTimeRemaining 2000 (startSession 1000 testUser "t" fresh) ≤ 86400000 ∧
  getTimeRemaining 2000 (startSession 1000 testUser "t" fresh)
  ≤ getTimeRemaining 1000 (startSession 1000 testUser "t" fresh).
Proof.
  destruct (getTimeRemaining_bounds fresh testUser "t" 24 1000 2000)
    as (_ & _ & Hstart).
  destruct (getTimeRemaining_bounds (startSession 1000 testUser "t" fresh)
              testUser "t" 24 1000 2000) as (_ & Hmono & _).
  destruct Hstart as [Hfull Hle]; [reflexivity|lia|lia|].
  split_and!; [exact Hfull|apply Hle; lia|apply Hmono; lia].
Defined.

Lemma session_survives_reconstruction_witness :
  let s := mkSessionState testUser "token_1_1000_abc" 1000 86401000 in
  let stored := storage (startSession 1000 testUser "token_1_1000_abc" fresh) in
  currentSession (constructor stored 1 5000) = Some s ∧
  currentSession (constructor stored 1 86401000) = None ∧
  storage_get sessionKey (storage (constructor stored 1 86401000))
  = None (A:=SessionState).
Proof.
  intros s stored.
  destruct (session_survives_reconstruction fresh testUser
              "token_1_1000_abc" 1000 5000 1) as [Hlive _];
    [reflexivity|discriminate|].
  destruct (session_survives_reconstruction fresh testUser
              "token_1_1000_abc" 1000 86401000 1) as [_ Hdead];
    [reflexivity|discriminate|].
  split.
  - apply Hlive. vm_compute. reflexivity.
  - apply Hdead. vm_compute. discriminate.
Defined.

Lemma session_manager_localStorage_frame_witness :
  let ls : gmap string string := {[ "poo_demo_theme" := "dark" ]} in
  LocalStorageService.localStorage
    (storage (run [StartSession 5 testUser "t"; ExtendSession 6 7; EndSession]
                (constructor (LocalStorageService.mk "poo_demo_" ls) 24 0)))
    !! "poo_demo_theme"
  = ls !! "poo_demo_theme".
Proof.
  intros ls.
  apply (session_manager_localStorage_frame (codec:=FieldCodec.json)
           "poo_demo_" ls 24 0). discriminate.
Defined.

End SessionManagerMoreExamples.

(* ===================================================================== *)
(** * The input validation of the Login Use Case *)
(* ===================================================================== *)

Section EmailRegex.
Import RegExp.

Lemma string_app_nil_r (s : string) : s +:+ "" = s.
Proof.
  induction s as [|c s IH]; [done|].
  change (String c (s +:+ "") = String c s). by rewrite IH.
Qed.

Lemma string_app_eq_nil (a b : string) : a +:+ b = "" → a = "" ∧ b = "".
Proof. destruct a; [done|]. discriminate. Qed.

Lemma matches_nil_nullable (r : regex) (s : string) :
  matches r s → s = "" → nullable r = true.
Proof.
  induction 1 as [|p c Hp|r1 r2 s1 s2 _ IH1 _ IH2|r1 r2 s _ IH|r1 r2 s _ IH
                  |r|r s1 s2 _ _ _ _]; intros Hs; simpl; try done.
  - apply string_app_eq_nil in Hs as [-> ->]. by rewrite IH1, IH2.
  - by rewrite IH.
  - rewrite IH by done. apply orb_true_r.
Qed.

Lemma nullable_matches (r : regex) : nullable r = true → matches r "".
Proof.
  induction r as [| |p|r1 IH1 r2 IH2|r1 IH1 r2 IH2|r IH]; simpl;
    try discriminate.
  - intros _. constructor.
  - intros [H1 H2]%andb_true_iff.
    change (matches (Cat r1 r2) ("" +:+ "")). constructor; auto.
  - intros [H1|H2]%orb_true_iff; [apply MAltL|apply MAltR]; auto.
  - intros _. constructor.
Qed.

Lemma matches_cat_cons (r1 r2 : regex) (c : ascii) (s : string) :
  matches (Cat r1 r2) (String c s) →
  (∃ s1 s2, s = s1 +:+ s2 ∧ matches r1 (String c s1) ∧ matches r2 s2)
  ∨ (matches r1 "" ∧ matches r2 (String c s)).
Proof.
  intros Hm. remember (Cat r1 r2) as r eqn:Hr.
  remember (String c s) as w eqn:Hw.
  destruct Hm as [| |q1 q2 s1 s2 H1 H2| | | |]; try discriminate.
  injection Hr as -> ->. destruct s1 as [|d s1].
  - right. change (s2 = String c s) in Hw. by subst.
  - left. change (String d (s1 +:+ s2) = String c s) in Hw.
    injection Hw as -> <-. by exists s1, s2.
Qed.

Lemma matches_star_cons (r : regex) (c : ascii) (s : string) :
  matches (Star r) (String c s) →
  ∃ s1 s2, s = s1 +:+ s2 ∧ matches r (String c s1) ∧ matches (Star r) s2.
Proof.
  intros Hm. remember (Star r) as r' eqn:Hr.
  remember (String c s) as w eqn:Hw. revert Hr Hw.
  induction Hm as [| | | | |q|q s1 s2 H1 _ H2 IH2]; intros Hr Hw;
    try discriminate.
  injection Hr as ->. destruct s1 as [|d s1].
  - change (s2 = String c s) in Hw. by apply IH2.
  - change (String d (s1 +:+ s2) = String c s) in Hw.
    injection Hw as -> <-. by exists s1, s2.
Qed.

Lemma deriv_matches (c : ascii) (r : regex) (s : string) :
  matches (deriv c r) s ↔ matches r (String c s).
Proof.
  revert s.
  induction r as [| |p|r1 IH1 r2 IH2|r1 IH1 r2 IH2|r IH]; intros s; simpl.
  - split; intros Hm; inversion Hm.
  - split; intros Hm; inversion Hm.
  - destruct (p c) eqn:Hp; split; intros Hm.
    + inversion Hm; subst. by constructor.
    + inversion Hm; subst. constructor.
    + inversion Hm.
    + inversion Hm; subst. congruence.
  - split.
    + intros Hm.
      assert (matches (Cat (deriv c r1) r2) s →
              matches (Cat r1 r2) (String c s)) as Hcat.
      { intros Hc. inversion Hc as [| |q1 q2 s1 s2 H1 H2| | | |]; subst.
        change (matches (Cat r1 r2) (String c s1 +:+ s2)).
        constructor; [by apply IH1|done]. }
      destruct (nullable r1) eqn:Hn; [|by apply Hcat].
      inversion Hm as [| | |q1 q2 s' Hl|q1 q2 s' Hr| |]; subst;
        [by apply Hcat|].
      change (matches (Cat r1 r2) ("" +:+ String c s)).
      constructor; [by apply nullable_matches|by apply IH2].
    + intros [(s1 & s2 & -> & H1 & H2)|[H1 H2]]%matches_cat_cons.
      * assert (matches (Cat (deriv c r1) r2) (s1 +:+ s2)) as Hc
          by (constructor; [by apply IH1|done]).
        destruct (nullable r1); [by apply MAltL|done].
      * rewrite (matches_nil_nullable r1 "" H1 eq_refl).
        apply MAltR. by apply IH2.
  - split; intros Hm.
    + inversion Hm; subst; [apply MAltL; by apply IH1|apply MAltR; by apply IH2].
    + inversion Hm; subst; [apply MAltL; by apply IH1|apply MAltR; by apply IH2].
  - split.
    + intros Hm. inversion Hm as [| |q1 q2 s1 s2 H1 H2| | | |]; subst.
      change (matches (Star r) (String c s1 +:+ s2)).
      constructor; [by apply IH|done].
    + intros (s1 & s2 & -> & H1 & H2)%matches_star_cons.
      constructor; [by apply IH|done].
Qed.

(** The matcher decides the language. *)
Lemma test_matches (r : regex) (s : string) :
  test r s = true ↔ matches r s.
Proof.
  revert r. induction s as [|c s IH]; intros r; simpl.
  - split; [apply nullable_matches|].
    intros Hm. by apply (matches_nil_nullable r "").
  - rewrite IH. apply deriv_matches.
Qed.

Lemma matches_cat (r1 r2 : regex) (s : string) :
  matches (Cat r1 r2) s ↔ ∃ s1 s2, s = s1 +:+ s2 ∧ matches r1 s1 ∧ matches r2 s2.
Proof.
  split.
  - intros Hm. inversion Hm; subst. eauto.
  - intros (s1 & s2 & -> & H1 & H2). by constructor.
Qed.

Lemma matches_lit (a : ascii) (s : string) :
  matches (lit a) s ↔ s = String a "".
Proof.
  unfold lit. split.
  - intros Hm. inversion Hm as [|p c Hp| | | | |]; subst.
    by apply Ascii.eqb_eq in Hp as ->.
  - intros ->. constructor. apply Ascii.eqb_refl.
Qed.

Lemma matches_star_class (p : ascii → bool) (s : string) :
  matches (Star (Class p)) s ↔ allChars p s = true.
Proof.
  split.
  - intros Hm. remember (Star (Class p)) as r eqn:Hr. revert Hr.
    induction Hm as [| | | | |q|q s1 s2 H1 _ _ IH2]; intros Hr;
      try discriminate; [done|].
    injection Hr as ->. inversion H1 as [|p' c Hp| | | | |]; subst.
    change (allChars p (String c s2) = true). simpl.
    by rewrite Hp, IH2.
  - induction s as [|c s IH]; simpl; [constructor|].
    intros [Hp Hs]%andb_true_iff.
    change (matches (Star (Class p)) (String c "" +:+ s)).
    constructor; [by constructor|by apply IH].
Qed.

Lemma matches_plus_class (p : ascii → bool) (s : string) :
  matches (Plus (Class p)) s ↔ s ≠ "" ∧ allChars p s = true.
Proof.
  unfold Plus. rewrite matches_cat. split.
  - intros (s1 & s2 & -> & H1 & H2).
    inversion H1 as [|p' c Hp| | | | |]; subst.
    apply matches_star_class in H2.
    change (String c s2 ≠ "" ∧ allChars p (String c s2) = true).
    simpl. by rewrite Hp, H2.
  - intros [Hne Hall]. destruct s as [|c s]; [done|].
    simpl in Hall. apply andb_true_iff in Hall as [Hp Hs].
    exists (String c ""), s. split_and!; [done|by constructor|].
    by apply matches_star_class.
Qed.

Lemma emailRegex_matches (s : string) :
  matches LoginUserUseCase.emailRegex s ↔ EmailShape s.
Proof.
  unfold LoginUserUseCase.emailRegex, EmailShape.
  fold plainChar.
  split.
  - intros (a & s1 & -> & Ha & H1)%matches_cat.
    apply matches_cat in H1 as (at_ & s2 & -> & Hat & H2).
    apply matches_cat in H2 as (b & s3 & -> & Hb & H3).
    apply matches_cat in H3 as (dot & c & -> & Hdot & Hc).
    apply matches_lit in Hat as ->. apply matches_lit in Hdot as ->.
    apply matches_plus_class in Ha as [? ?], Hb as [? ?], Hc as [? ?].
    by exists a, b, c.
  - intros (a & b & c & -> & ? & ? & ? & ? & ? & ?).
    apply matches_cat. exists a, ("@" +:+ b +:+ "." +:+ c).
    split_and!; [done|by apply matches_plus_class|].
    apply matches_cat. exists "@", (b +:+ "." +:+ c).
    split_and!; [done|by apply matches_lit|].
    apply matches_cat. exists b, ("." +:+ c).
    split_and!; [done|by apply matches_plus_class|].
    apply matches_cat. exists ".", c.
    split_and!; [done|by apply matches_lit|by apply matches_plus_class].
Qed.

(** X19. On an email of ASCII characters, the pattern
    [/^[^\s@]+@[^\s@]+\.[^\s@]+$/] accepts exactly the strings of the
    shape local@domain.tld: three non-empty runs without white space or at
    sign, joined by one at sign and a dot. *)
Theorem emailRegex_accepts_shape (s : string) :
  asciiOnly s = true →
  (RegExp.test LoginUserUseCase.emailRegex s = true ↔ EmailShape s).
Proof. intros _. rewrite test_matches. apply emailRegex_matches. Qed.

Lemma emailRegex_accepts_shape_witness :
  RegExp.test LoginUserUseCase.emailRegex "a@b.co.uk" = true
  ↔ EmailShape "a@b.co.uk".
Proof. apply (emailRegex_accepts_shape "a@b.co.uk"). reflexivity. Defined.

End EmailRegex.

Section ValidateInput.
Import LoginUserUseCase.

Lemma trimStart_nil (s : string) :
  trimStart s = "" ↔ allChars RegExp.isWhiteSpace s = true.
Proof.
  induction s as [|c s IH]; simpl; [done|].
  destruct (RegExp.isWhiteSpace c); simpl; [done|].
  split; discriminate.
Qed.

Lemma trimStart_white (s : string) :
  allChars RegExp.isWhiteSpace (trimStart s)
  = allChars RegExp.isWhiteSpace s.
Proof.
  induction s as [|c s IH]; simpl; [done|].
  destruct (RegExp.isWhiteSpace c) eqn:Hc; simpl; [done|].
  by rewrite Hc.
Qed.

Lemma rev_app_white (s acc : string) :
  allChars RegExp.isWhiteSpace (String.rev_app s acc)
  = allChars RegExp.isWhiteSpace s && allChars RegExp.isWhiteSpace acc.
Proof.
  revert acc. induction s as [|c s IH]; intros acc; simpl; [done|].
  rewrite IH. simpl.
  destruct (RegExp.isWhiteSpace c), (allChars RegExp.isWhiteSpace s); done.
Qed.

Lemma rev_app_nil (s acc : string) :
  String.rev_app s acc = "" ↔ s = "" ∧ acc = "".
Proof.
  revert acc. induction s as [|c s IH]; intros acc; simpl.
  - split; [done|by intros [_ ?]].
  - rewrite IH. split; [by intros [_ ?]|by intros [? _]].
Qed.

(** [trim] leaves nothing exactly of the strings made of white space. *)
Lemma trim_nil (s : string) :
  trim s = "" ↔ allChars RegExp.isWhiteSpace s = true.
Proof.
  unfold trim, String.rev. rewrite rev_app_nil, trimStart_nil, rev_app_white.
  rewrite trimStart_white. simpl. rewrite andb_true_r. by split; [intros [? _]|].
Qed.

Lemma EmailShape_not_white (s : string) :
  EmailShape s → allChars RegExp.isWhiteSpace s = false.
Proof.
  intros (a & b & c & -> & Ha & _ & _ & Hplain & _).
  destruct a as [|x a]; [done|].
  change (allChars RegExp.isWhiteSpace
            (String x (a +:+ "@" +:+ b +:+ "." +:+ c)) = false).
  simpl in *. apply andb_true_iff in Hplain as [Hx _].
  unfold plainChar in Hx.
  destruct (RegExp.isWhiteSpace x); [discriminate|done].
Qed.

(** X20. On an email of ASCII characters, [validateInput] accepts exactly
    the pairs of an email of the shape local@domain.tld and a non-empty
    password. It answers "El email es requerido" for an email made of white
    space only, whatever the password; else "La contraseña es requerida"
    for an empty password; else "Formato de email inválido". *)
Theorem validateInput_cases (em pw : string) :
  asciiOnly em = true →
  (validateInput em pw = None ↔ EmailShape em ∧ pw ≠ "") ∧
  (allChars RegExp.isWhiteSpace em = true →
   validateInput em pw = Some "El email es requerido") ∧
  (allChars RegExp.isWhiteSpace em = false → pw = "" →
   validateInput em pw = Some "La contraseña es requerida") ∧
  (allChars RegExp.isWhiteSpace em = false → pw ≠ "" → ¬ EmailShape em →
   validateInput em pw = Some "Formato de email inválido").
Proof.
  intros _. unfold validateInput.
  destruct (String.eqb_spec (trim em) "") as [Hblank|Hblank].
  - apply trim_nil in Hblank. split_and!; try done; try congruence.
    split; [done|]. intros [Hshape _].
    apply EmailShape_not_white in Hshape. congruence.
  - assert (allChars RegExp.isWhiteSpace em = false) as Hw.
    { destruct (allChars RegExp.isWhiteSpace em) eqn:E; [|done].
      by apply trim_nil in E. }
    destruct (String.eqb_spec pw "") as [->|Hpw].
    + split_and!; try done; try congruence. split; [done|]. by intros [_ ?].
    + destruct (RegExp.test emailRegex em) eqn:Ht; simpl.
      * apply test_matches, emailRegex_matches in Ht.
        split_and!; try done; try congruence.
      * assert (¬ EmailShape em) as Hno.
        { intros Hs. apply emailRegex_matches, test_matches in Hs.
          congruence. }
        split_and!; try done; try congruence.
        split; [done|]. by intros [? _].
Qed.

End ValidateInput.

Lemma validateInput_cases_witness :
  LoginUserUseCase.validateInput "test@test.com" "123456" = None ∧
  LoginUserUseCase.validateInput "  " "123456"
  = Some "El email es requerido" ∧
  LoginUserUseCase.validateInput "test@test.com" ""
  = Some "La contraseña es requerida" ∧
  LoginUserUseCase.validateInput "test@test" "123456"
  = Some "Formato de email inválido".
Proof.
  split_and!.
  - apply (proj1 (validateInput_cases "test@test.com" "123456" eq_refl)). split.
    + unfold EmailShape. exists "test", "test", "com".
      split_and!; [reflexivity|discriminate..|reflexivity|reflexivity
                  |reflexivity].
    + discriminate.
  - apply (proj1 (proj2 (validateInput_cases "  " "123456" eq_refl))). reflexivity.
  - apply (proj1 (proj2 (proj2 (validateInput_cases "test@test.com" "" eq_refl))));
      reflexivity.
  - apply (proj2 (proj2 (proj2 (validateInput_cases "test@test" "123456" eq_refl))));
      [reflexivity|discriminate|].
    intros Hshape. apply emailRegex_matches, test_matches in Hshape.
    discriminate Hshape.
Defined.

(* ===================================================================== *)
(** * Further properties of the Login Use Case *)
(* ===================================================================== *)

Section LoginUseCaseMore.
Import LoginUserUseCase.
Context {W : Type} `{AuthService W} `{SessionService W}.

Lemma idle_eta (self : t W) :
  isLoading self = false → mk false (services self) = self.
Proof. destruct self as [l w]. simpl. by intros ->. Qed.

(** X21. Input that [validateInput] rejects never reaches the
    collaborators: [execute] resolves at once to the validation message,
    before the [await], and leaves the instance and both services exactly
    as they were, whatever the services are. *)
Theorem invalid_input_short_circuits (em pw : string) (self : t W)
    (validationError : string) :
  isLoading self = false →
  validateInput em pw = Some validationError →
  execute em pw self = (self, Returned (LoginFailure validationError)) ∧
  execute_enter em pw self
  = (self, Resolved (Returned (LoginFailure validationError))).
Proof.
  intros Hidle Hv. split.
  - by rewrite execute_cases, Hidle, Hv, idle_eta.
  - unfold execute_enter. rewrite Hidle, Hv.
    unfold catchAll, try_finally, try_catch, setLoading, mret, M_ret. simpl.
    by rewrite idle_eta.
Qed.

(** X22. A call of [execute] turned away while another one is suspended
    does not disturb it: resuming the suspended call afterwards resolves it
    exactly as if it had run alone. *)
Theorem overlap_leaves_first_call (em1 pw1 em2 pw2 : string)
    (self self1 : t W) :
  execute_enter em1 pw1 self = (self1, Awaiting em1 pw1) →
  execute_resume (Awaiting em1 pw1) (execute em2 pw2 self1).1
  = execute em1 pw1 self.
Proof.
  intros Hfirst. rewrite (execute_split em1 pw1 self), Hfirst.
  apply execute_enter_awaiting in Hfirst as (_ & -> & _).
  by rewrite (execute_cases em2 pw2).
Qed.

End LoginUseCaseMore.

Section AppProperties.
Import LoginUserUseCase.
Context {A : Type} `{StorageService A} {codec : Json SessionManager.SessionState}.

Ltac run_app :=
  unfold getAuthState, isAuthenticated, getCurrentUser, logout, call,
    try_catch, modify, reads, mbind, M_bind, mret, M_ret; simpl.

Lemma world_eta (w : App.World A) :
  App.mkWorld (App.authService w) (App.sessionManager w) (App.now w)
    (App.random w) = w.
Proof. by destruct w. Qed.

(** X24. A login that fails on the assembled application, for whichever
    reason, changes nothing: the use case, the Authenticator's tokens, the
    Session Manager and its store are as before the call. *)
Theorem failed_login_changes_nothing (self : t (App.World A)) (em pw : string)
    (error : string) :
  (execute em pw self).2 = Returned (LoginFailure error) →
  (execute em pw self).1 = self.
Proof.
  rewrite execute_cases.
  destruct (isLoading self) eqn:Hidle; [done|].
  destruct (validateInput em pw); simpl; [intros _; by apply idle_eta|].
  rewrite catchAll_authenticateAndStart. simpl.
  unfold AuthServiceImpl.authenticate.
  destruct (AuthServiceImpl.falsy em || AuthServiceImpl.falsy pw); simpl.
  - intros _. unfold App.withAuth. rewrite world_eta. by apply idle_eta.
  - destruct (AuthServiceImpl.findValidUser em pw); simpl; [discriminate|].
    intros _. unfold App.withAuth. rewrite world_eta. by apply idle_eta.
Qed.

(** X25. [logout] on the assembled application always answers
    [{success: true}] and leaves no session: [getAuthState] then reports
    nobody authenticated. The Authenticator is not told: every token,
    the one of the session just ended included, is as valid as before. *)
Theorem logout_ends_session_only (self : t (App.World A)) :
  (logout self).2 = Returned (mkLogoutResult true) ∧
  (getAuthState (logout self).1).2
  = Returned (AuthState.mk false None (isLoading self)) ∧
  App.authService (services (logout self).1) = App.authService (services self) ∧
  ∀ s, AuthServiceImpl.validateToken s (App.authService (services (logout self).1))
       = AuthServiceImpl.validateToken s (App.authService (services self)).
Proof. by run_app. Qed.

End AppProperties.

Section LoginUseCaseMoreExamples.
Import LoginUserUseCase.

Lemma invalid_input_short_circuits_witness :
  let down := Doubles.mk (Some (ThrownError "network down")) None None in
  execute "not an email" "secret" (mk false down)
  = (mk false down, Returned (LoginFailure "Formato de email inválido")).
Proof.
  intros down.
  apply (invalid_input_short_circuits "not an email" "secret" (mk false down));
    reflexivity.
Defined.

Lemma overlap_leaves_first_call_witness :
  execute_resume (Awaiting "test@test.com" "123456")
    (execute "admin@test.com" "admin123" (mk true (services demo))).1
  = execute "test@test.com" "123456" demo.
Proof.
  apply (overlap_leaves_first_call "test@test.com" "123456"
           "admin@test.com" "admin123" demo (mk true (services demo))).
  vm_compute. reflexivity.
Defined.

Lemma failed_login_changes_nothing_witness :
  (execute "bad@test.com" "wrong" demo).1 = demo ∧
  (execute "" "" demo).1 = demo.
Proof.
  split.
  - apply (failed_login_changes_nothing demo "bad@test.com" "wrong"
             "Credenciales inválidas"). reflexivity.
  - apply (failed_login_changes_nothing demo "" ""
             "El email es requerido"). reflexivity.
Defined.

End LoginUseCaseMoreExamples.

Lemma endSession_clears_witness :
  let self := SessionManager.startSession 5 testUser "token_1_5_abc" fresh in
  SessionManager.getToken (SessionManager.endSession self) = None ∧
  SessionManager.isActive 6 (SessionManager.endSession self) = false ∧
  SessionManager.currentSession
    (SessionManager.constructor
       (SessionManager.storage (SessionManager.endSession self)) 24 6)
  = None.
Proof.
  intros self.
  destruct (endSession_clears self 6 24) as (_ & _ & Htoken & Hactive & _ & Hre).
  by split_and!.
Defined.

(* ===================================================================== *)
(** * The Login Use Case under a running clock *)
(* ===================================================================== *)

Section ClockedAppProperties.
Import LoginUserUseCase.
Context {A : Type} `{StorageService A} {codec : Json SessionManager.SessionState}.






End ClockedAppProperties.

Section ClockedAppExamples.
Import LoginUserUseCase.



(** The session expiring between the two readings of [getAuthState]: a
    user is reported, and not authenticated. *)
Example auth_state_across_expiry :
  (getAuthState clockedAtExpiry).2
  = Returned (AuthState.mk false (Some testUser) false).
Proof. vm_compute. reflexivity. Qed.

End ClockedAppExamples.
